(** * pychain.std: ledgers and capability mixins

    A shallow embedding of the Python standard library of contracts
    ([pychain/std/base/Token.py], [pychain/std/base/NFT.py] and the mixins
    [Ownable], [Pausable], [ReentrancyGuard], [Mintable], [Burnable]) and
    the properties of its specification.

    Python dictionaries are finite maps ([gmap]); Python integers are [Z];
    an address is a string.  A method is a computation in a state-and-
    exception monad: a raised exception stops the method, and the writes
    made before the [raise] stay in the state, as they do in Python.  The
    host services are explicit: [msg_sender()] is the [sender] argument of a
    method, [event(...)] appends to the log carried by the state, and
    [state_var(key, default)] is the initial value of a field. *)

From stdpp Require Import gmap strings list fin_maps.

Local Open Scope string_scope.
Local Open Scope Z_scope.

(** ** Values shared by all contracts *)

Definition ZERO_ADDRESS : string := "0x0000000000000000000000000000000000000000".

(** What a Python method can raise here: [raise Exception(msg)], the
    [KeyError] of a subscript on a dictionary that lacks the key, or the
    [AttributeError] of reading an attribute that was never set. *)
Inductive error : Type :=
  | Exception (msg : string)
  | KeyError
  | AttributeError.

Inductive result (A : Type) : Type :=
  | Ok (a : A)
  | Raise (e : error).
Arguments Ok {A} a.
Arguments Raise {A} e.

(** Arguments of an emitted event. *)
Inductive arg : Type :=
  | Addr (a : string)
  | Int (z : Z)
  | Bool (b : bool).

Definition event_record : Type := string * list arg.

(** ** The monad of methods *)

Definition M (S A : Type) : Type := S → S * result A.

Definition ret {S A} (a : A) : M S A := λ s, (s, Ok a).
Definition raise {S A} (e : error) : M S A := λ s, (s, Raise e).
Definition bind {S A B} (m : M S A) (k : A → M S B) : M S B :=
  λ s, match m s with
       | (s', Ok a) => k a s'
       | (s', Raise e) => (s', Raise e)
       end.
Definition get {S} : M S S := λ s, (s, Ok s).
Definition modify {S} (f : S → S) : M S unit := λ s, (f s, Ok tt).

Notation "'let*' x ':=' m 'in' k" := (bind m (λ x, k))
  (at level 10, x name, m at level 100, k at level 200, only parsing).

(** A call used as a statement: its value is dropped. *)
Definition void {S A} (m : M S A) : M S unit := let* _ := m in ret tt.

(** A method is atomic on failure when a run that raises hands back the
    state it started from. *)
Definition atomic {S A} (m : M S A) : Prop :=
  ∀ s e, (m s).2 = Raise e → (m s).1 = s.

(** [d.get(k, 0)] on a dictionary of integers. *)
Definition get0 {K} `{Countable K} (d : gmap K Z) (k : K) : Z := default 0 (d !! k).

(** [sum(d.values())]. *)
Definition sum_values {K} `{Countable K} (d : gmap K Z) : Z :=
  map_fold (λ _ v acc, v + acc) 0 d.

(** [1] when [P] holds and [0] otherwise. *)
Definition indicator (P : Prop) `{Decision P} : Z := if decide P then 1 else 0.

(** ** Token.py *)

Module Token.

Record state : Type := mk {
  name : string;
  symbol : string;
  decimals : Z;
  total_supply : Z;
  balances : gmap string Z;
  allowances : gmap string (gmap string Z);
  log : list event_record
}.

Definition set_total_supply (v : Z) (s : state) : state :=
  mk (name s) (symbol s) (decimals s) v (balances s) (allowances s) (log s).
Definition set_balances (b : gmap string Z) (s : state) : state :=
  mk (name s) (symbol s) (decimals s) (total_supply s) b (allowances s) (log s).
Definition set_allowances (a : gmap string (gmap string Z)) (s : state) : state :=
  mk (name s) (symbol s) (decimals s) (total_supply s) (balances s) a (log s).
Definition set_log (l : list event_record) (s : state) : state :=
  mk (name s) (symbol s) (decimals s) (total_supply s) (balances s) (allowances s) l.

(** [Token.__init__] *)
Definition init (name symbol : string) (decimals : Z) : state :=
  mk name symbol decimals 0 ∅ ∅ [].

(** [self.event(name, args...)] *)
Definition event (n : string) (args : list arg) : M state unit :=
  modify (λ s, set_log (log s ++ [(n, args)]) s).

(** [self.balances[k] = v] *)
Definition store_balance (k : string) (v : Z) : M state unit :=
  modify (λ s, set_balances (<[k:=v]> (balances s)) s).

(** [self.allowances[owner][spender] = v]: the outer subscript raises
    [KeyError] when [owner] has no dictionary yet. *)
Definition store_allowance (owner spender : string) (v : Z) : M state unit :=
  let* s := get in
  match allowances s !! owner with
  | None => raise KeyError
  | Some d => modify (set_allowances (<[owner := <[spender:=v]> d]> (allowances s)))
  end.

Definition balance_of (s : state) (account : string) : Z :=
  get0 (balances s) account.

Definition allowance (s : state) (owner spender : string) : Z :=
  match allowances s !! owner with
  | None => 0
  | Some d => get0 d spender
  end.

Definition transfer (sender to : string) (amount : Z) : M state bool :=
  if decide (to = ZERO_ADDRESS) then
    raise (Exception "Token: transfer to zero address")
  else if decide (amount ≤ 0) then
    raise (Exception "Token: amount must be positive")
  else
    let* s := get in
    let sender_balance := get0 (balances s) sender in
    if decide (sender_balance < amount) then
      raise (Exception "Token: insufficient balance")
    else
      let* _ := store_balance sender (sender_balance - amount) in
      let* s := get in
      let* _ := store_balance to (get0 (balances s) to + amount) in
      let* _ := event "Transfer" [Addr sender; Addr to; Int amount] in
      ret true.

Definition approve (sender spender : string) (amount : Z) : M state bool :=
  if decide (spender = ZERO_ADDRESS) then
    raise (Exception "Token: approve to zero address")
  else
    let* s := get in
    let* _ := match allowances s !! sender with
              | None => modify (set_allowances (<[sender:=∅]> (allowances s)))
              | Some _ => ret tt
              end in
    let* _ := store_allowance sender spender amount in
    let* _ := event "Approval" [Addr sender; Addr spender; Int amount] in
    ret true.

Definition transfer_from (sender from_addr to : string) (amount : Z) : M state bool :=
  if decide (to = ZERO_ADDRESS) then
    raise (Exception "Token: transfer to zero address")
  else
    let* s := get in
    let current_allowance := allowance s from_addr sender in
    if decide (current_allowance < amount) then
      raise (Exception "Token: insufficient allowance")
    else
      let from_balance := get0 (balances s) from_addr in
      if decide (from_balance < amount) then
        raise (Exception "Token: insufficient balance")
      else
        let* _ := store_balance from_addr (from_balance - amount) in
        let* s := get in
        let* _ := store_balance to (get0 (balances s) to + amount) in
        let* _ := store_allowance from_addr sender (current_allowance - amount) in
        let* _ := event "Transfer" [Addr from_addr; Addr to; Int amount] in
        ret true.

Definition _mint (account : string) (amount : Z) : M state unit :=
  if decide (account = ZERO_ADDRESS) then
    raise (Exception "Token: mint to zero address")
  else if decide (amount ≤ 0) then
    raise (Exception "Token: mint amount must be positive")
  else
    let* _ := modify (λ s, set_total_supply (total_supply s + amount) s) in
    let* s := get in
    let* _ := store_balance account (get0 (balances s) account + amount) in
    event "Transfer" [Addr ZERO_ADDRESS; Addr account; Int amount].

Definition _burn (account : string) (amount : Z) : M state unit :=
  let* s := get in
  let account_balance := get0 (balances s) account in
  if decide (account_balance < amount) then
    raise (Exception "Token: burn amount exceeds balance")
  else
    let* _ := store_balance account (account_balance - amount) in
    let* _ := modify (λ s, set_total_supply (total_supply s - amount) s) in
    event "Transfer" [Addr account; Addr ZERO_ADDRESS; Int amount].

(** The public and internal entry points of the fungible ledger, each with
    the caller the host reports. *)
Inductive call : Type :=
  | Transfer (sender to : string) (amount : Z)
  | Approve (sender spender : string) (amount : Z)
  | TransferFrom (sender from_addr to : string) (amount : Z)
  | Mint (account : string) (amount : Z)
  | Burn (account : string) (amount : Z).

(** Runs a call and drops the value it returns. *)
Definition exec (c : call) : M state unit :=
  match c with
  | Transfer sender to amount => void (transfer sender to amount)
  | Approve sender spender amount => void (approve sender spender amount)
  | TransferFrom sender from_addr to amount =>
      void (transfer_from sender from_addr to amount)
  | Mint account amount => _mint account amount
  | Burn account amount => _burn account amount
  end.

(** States reached from a fresh token by calls that returned. *)
Inductive reachable : state → Prop :=
  | reachable_init n sy d : reachable (init n sy d)
  | reachable_step c s s' :
      reachable s → exec c s = (s', Ok tt) → reachable s'.

Definition supply_invariant (s : state) : Prop :=
  sum_values (balances s) = total_supply s.

(** No recorded balance is below zero. *)
Definition nonnegative (s : state) : Prop :=
  ∀ x n, balances s !! x = Some n → 0 ≤ n.

End Token.

(** ** NFT.py *)

Module NFT.

Record state : Type := mk {
  name : string;
  symbol : string;
  owners : gmap Z string;
  balances : gmap string Z;
  token_approvals : gmap Z string;
  operator_approvals : gmap string (gmap string bool);
  next_token_id : Z;
  log : list event_record
}.

Definition set_owners (o : gmap Z string) (s : state) : state :=
  mk (name s) (symbol s) o (balances s) (token_approvals s)
     (operator_approvals s) (next_token_id s) (log s).
Definition set_balances (b : gmap string Z) (s : state) : state :=
  mk (name s) (symbol s) (owners s) b (token_approvals s)
     (operator_approvals s) (next_token_id s) (log s).
Definition set_token_approvals (a : gmap Z string) (s : state) : state :=
  mk (name s) (symbol s) (owners s) (balances s) a
     (operator_approvals s) (next_token_id s) (log s).
Definition set_operator_approvals (a : gmap string (gmap string bool)) (s : state) : state :=
  mk (name s) (symbol s) (owners s) (balances s) (token_approvals s)
     a (next_token_id s) (log s).
Definition set_log (l : list event_record) (s : state) : state :=
  mk (name s) (symbol s) (owners s) (balances s) (token_approvals s)
     (operator_approvals s) (next_token_id s) l.

(** [NFT.__init__] *)
Definition init (name symbol : string) : state :=
  mk name symbol ∅ ∅ ∅ ∅ 1 [].

Definition event (n : string) (args : list arg) : M state unit :=
  modify (λ s, set_log (log s ++ [(n, args)]) s).

(** Python truth value of [d.get(k)] for a dictionary of strings: [None]
    and the empty string are false. *)
Definition truthy (o : option string) : bool :=
  match o with
  | Some a => bool_decide (a ≠ "")
  | None => false
  end.

(** [if token_id in self.token_approvals: del self.token_approvals[token_id]] *)
Definition clear_approval (token_id : Z) : M state unit :=
  let* s := get in
  match token_approvals s !! token_id with
  | Some _ => modify (set_token_approvals (delete token_id (token_approvals s)))
  | None => ret tt
  end.

(** [self.balances[k] -= 1]: reads the entry first, [KeyError] without it. *)
Definition decrement_balance (k : string) : M state unit :=
  let* s := get in
  match balances s !! k with
  | None => raise KeyError
  | Some n => modify (set_balances (<[k := n - 1]> (balances s)))
  end.

(** [self.balances[k] = self.balances.get(k, 0) + 1] *)
Definition increment_balance (k : string) : M state unit :=
  modify (λ s, set_balances (<[k := get0 (balances s) k + 1]> (balances s)) s).

Definition balance_of (owner : string) : M state Z :=
  if decide (owner = ZERO_ADDRESS) then
    raise (Exception "NFT: balance query for zero address")
  else
    let* s := get in ret (get0 (balances s) owner).

Definition owner_of (token_id : Z) : M state string :=
  let* s := get in
  match owners s !! token_id with
  | Some owner =>
      if truthy (Some owner) then ret owner
      else raise (Exception "NFT: owner query for nonexistent token")
  | None => raise (Exception "NFT: owner query for nonexistent token")
  end.

Definition get_approved (token_id : Z) : M state string :=
  let* s := get in
  match owners s !! token_id with
  | None => raise (Exception "NFT: approved query for nonexistent token")
  | Some _ => ret (default "" (token_approvals s !! token_id))
  end.

Definition is_approved_for_all (s : state) (owner operator : string) : bool :=
  match operator_approvals s !! owner with
  | None => false
  | Some d => default false (d !! operator)
  end.

Definition _is_approved_or_owner (spender : string) (token_id : Z) : M state bool :=
  let* s := get in
  match owners s !! token_id with
  | Some owner =>
      if truthy (Some owner) then
        if decide (spender = owner) then ret true
        else
          let* approved := get_approved token_id in
          if decide (approved = spender) then ret true
          else
            let* s := get in ret (is_approved_for_all s owner spender)
      else ret false
  | None => ret false
  end.

Definition transfer_from (sender from_addr to : string) (token_id : Z) : M state unit :=
  let* authorised := _is_approved_or_owner sender token_id in
  if negb authorised then
    raise (Exception "NFT: transfer caller is not owner nor approved")
  else if decide (to = ZERO_ADDRESS) then
    raise (Exception "NFT: transfer to zero address")
  else
    let* s := get in
    if decide (owners s !! token_id ≠ Some from_addr) then
      raise (Exception "NFT: transfer from incorrect owner")
    else
      let* _ := clear_approval token_id in
      let* _ := decrement_balance from_addr in
      let* _ := increment_balance to in
      let* _ := modify (λ s, set_owners (<[token_id := to]> (owners s)) s) in
      event "Transfer" [Addr from_addr; Addr to; Int token_id].

Definition safe_transfer_from (sender from_addr to : string) (token_id : Z) : M state unit :=
  let* _ := transfer_from sender from_addr to token_id in
  ret tt.

Definition approve (sender to : string) (token_id : Z) : M state unit :=
  let* owner := owner_of token_id in
  if decide (to = owner) then
    raise (Exception "NFT: approval to current owner")
  else
    let* s := get in
    if bool_decide (sender ≠ owner) && negb (is_approved_for_all s owner sender) then
      raise (Exception "NFT: approve caller is not owner nor approved for all")
    else
      let* _ := modify (λ s, set_token_approvals (<[token_id := to]> (token_approvals s)) s) in
      event "Approval" [Addr owner; Addr to; Int token_id].

(** The inner dictionary of [sender] is created empty when missing and
    then receives the entry. *)
Definition set_approval_for_all (sender operator : string) (approved : bool) : M state unit :=
  if decide (operator = sender) then
    raise (Exception "NFT: approve to caller")
  else
    let* s := get in
    let d := default ∅ (operator_approvals s !! sender) in
    let* _ := modify (set_operator_approvals
                        (<[sender := <[operator := approved]> d]> (operator_approvals s))) in
    event "ApprovalForAll" [Addr sender; Addr operator; Bool approved].

Definition _mint (to : string) (token_id : Z) : M state unit :=
  if decide (to = ZERO_ADDRESS) then
    raise (Exception "NFT: mint to zero address")
  else
    let* s := get in
    match owners s !! token_id with
    | Some _ => raise (Exception "NFT: token already minted")
    | None =>
        let* _ := increment_balance to in
        let* _ := modify (λ s, set_owners (<[token_id := to]> (owners s)) s) in
        event "Transfer" [Addr ZERO_ADDRESS; Addr to; Int token_id]
    end.

Definition _burn (token_id : Z) : M state unit :=
  let* s := get in
  match owners s !! token_id with
  | Some owner =>
      if truthy (Some owner) then
        let* _ := clear_approval token_id in
        let* _ := decrement_balance owner in
        let* _ := modify (λ s, set_owners (delete token_id (owners s)) s) in
        event "Transfer" [Addr owner; Addr ZERO_ADDRESS; Int token_id]
      else raise (Exception "NFT: burn of nonexistent token")
  | None => raise (Exception "NFT: burn of nonexistent token")
  end.

Inductive call : Type :=
  | Mint (to : string) (token_id : Z)
  | Burn (token_id : Z)
  | TransferFrom (sender from_addr to : string) (token_id : Z)
  | Approve (sender to : string) (token_id : Z)
  | SetApprovalForAll (sender operator : string) (approved : bool).

Definition exec (c : call) : M state unit :=
  match c with
  | Mint to token_id => _mint to token_id
  | Burn token_id => _burn token_id
  | TransferFrom sender from_addr to token_id => transfer_from sender from_addr to token_id
  | Approve sender to token_id => approve sender to token_id
  | SetApprovalForAll sender operator approved => set_approval_for_all sender operator approved
  end.

(** States reached from a fresh collection by calls that returned. *)
Inductive reachable : state → Prop :=
  | reachable_init n sy : reachable (init n sy)
  | reachable_step c s s' :
      reachable s → exec c s = (s', Ok tt) → reachable s'.

(** Number of token ids whose recorded owner is [a]. *)
Definition owned_by (a : string) (o : gmap Z string) : Z :=
  Z.of_nat (size (filter (λ p : Z * string, p.2 = a) o)).

(** The accounting invariant of the collection: the counts add up to the
    number of tokens, and each count is the number of tokens of its
    address. *)
Definition count_invariant (s : state) : Prop :=
  sum_values (balances s) = Z.of_nat (size (owners s))
  ∧ ∀ a, get0 (balances s) a = owned_by a (owners s).

End NFT.

(** ** Ownable.py

    The mixin adds [owner] to the contract it is mixed into; [rest] is the
    state of that contract, which the mixin never touches. *)

Module Ownable.

Record state (D : Type) : Type := mk {
  owner : string;
  log : list event_record;
  rest : D
}.
Arguments mk {D} _ _ _.
Arguments owner {D} _.
Arguments log {D} _.
Arguments rest {D} _.

Section Methods.
Context {D : Type}.

Definition set_owner (o : string) (s : state D) : state D :=
  mk o (log s) (rest s).

Definition event (n : string) (args : list arg) : M (state D) unit :=
  modify (λ s, mk (owner s) (log s ++ [(n, args)]) (rest s)).

(** [Ownable.__init_mixin__], called by the deployer [sender]. *)
Definition __init_mixin__ (sender : string) (d : D) : state D :=
  mk sender [("OwnershipTransferred", [Addr ZERO_ADDRESS; Addr sender])] d.

Definition only_owner (sender : string) : M (state D) unit :=
  let* s := get in
  if decide (sender ≠ owner s) then
    raise (Exception "Ownable: caller is not the owner")
  else ret tt.

Definition get_owner (s : state D) : string := owner s.

Definition transfer_ownership (sender new_owner : string) : M (state D) unit :=
  let* _ := only_owner sender in
  if decide (new_owner = ZERO_ADDRESS) then
    raise (Exception "Ownable: new owner is zero address")
  else
    let* s := get in
    let old_owner := owner s in
    let* _ := modify (set_owner new_owner) in
    event "OwnershipTransferred" [Addr old_owner; Addr new_owner].

Definition renounce_ownership (sender : string) : M (state D) unit :=
  let* _ := only_owner sender in
  let* s := get in
  let old_owner := owner s in
  let* _ := modify (set_owner ZERO_ADDRESS) in
  event "OwnershipTransferred" [Addr old_owner; Addr ZERO_ADDRESS].

(** The calls a client can make on a contract with the mixin: the two
    ownership methods, and any method that starts with [self.only_owner()]
    and then runs its protected logic [body]. *)
Inductive call : Type :=
  | TransferOwnership (sender new_owner : string)
  | RenounceOwnership (sender : string)
  | Gated (sender : string) (body : M (state D) unit).

Definition caller (c : call) : string :=
  match c with
  | TransferOwnership sender _ => sender
  | RenounceOwnership sender => sender
  | Gated sender _ => sender
  end.

Definition exec (c : call) : M (state D) unit :=
  match c with
  | TransferOwnership sender new_owner => transfer_ownership sender new_owner
  | RenounceOwnership sender => renounce_ownership sender
  | Gated sender body => let* _ := only_owner sender in body
  end.

(** Runs the calls one after the other, whatever each one does, and
    collects their outcomes. *)
Fixpoint run (cs : list call) (s : state D) : state D * list (result unit) :=
  match cs with
  | [] => (s, [])
  | c :: cs' =>
      let (s1, r) := exec c s in
      let (s2, rs) := run cs' s1 in
      (s2, r :: rs)
  end.

End Methods.

Definition NotOwner : error := Exception "Ownable: caller is not the owner".

End Ownable.

(** ** Pausable.py *)

Module Pausable.

Record state (D : Type) : Type := mk {
  paused : bool;
  log : list event_record;
  rest : D
}.
Arguments mk {D} _ _ _.
Arguments paused {D} _.
Arguments log {D} _.
Arguments rest {D} _.

Section Methods.
Context {D : Type}.

Definition set_paused (b : bool) (s : state D) : state D :=
  mk b (log s) (rest s).

Definition event (n : string) (args : list arg) : M (state D) unit :=
  modify (λ s, mk (paused s) (log s ++ [(n, args)]) (rest s)).

Definition __init_mixin__ (l : list event_record) (d : D) : state D :=
  mk false l d.

Definition when_not_paused : M (state D) unit :=
  let* s := get in
  if paused s then raise (Exception "Pausable: paused") else ret tt.

Definition when_paused : M (state D) unit :=
  let* s := get in
  if negb (paused s) then raise (Exception "Pausable: not paused") else ret tt.

Definition is_paused (s : state D) : bool := paused s.

Definition pause (sender : string) : M (state D) unit :=
  let* _ := when_not_paused in
  let* _ := modify (set_paused true) in
  event "Paused" [Addr sender].

Definition unpause (sender : string) : M (state D) unit :=
  let* _ := when_paused in
  let* _ := modify (set_paused false) in
  event "Unpaused" [Addr sender].

End Methods.

End Pausable.

(** ** ReentrancyGuard.py

    [_status] is [None] on a contract whose [__init_mixin__] never ran (the
    attribute does not exist); [rest] is everything else the contract
    holds. *)

Module ReentrancyGuard.

Definition _NOT_ENTERED : Z := 1.
Definition _ENTERED : Z := 2.

Record state (D : Type) : Type := mk {
  _status : option Z;
  rest : D
}.
Arguments mk {D} _ _.
Arguments _status {D} _.
Arguments rest {D} _.

Section Methods.
Context {D : Type}.

Definition set_status (v : Z) (s : state D) : state D :=
  mk (Some v) (rest s).

Definition __init_mixin__ : M (state D) unit :=
  modify (set_status _NOT_ENTERED).

Definition nonreentrant : M (state D) unit :=
  let* s := get in
  match _status s with
  | None => raise AttributeError
  | Some st =>
      if decide (st = _ENTERED) then
        raise (Exception "ReentrancyGuard: reentrant call")
      else modify (set_status _ENTERED)
  end.

Definition _reset_reentrancy_guard : M (state D) unit :=
  modify (set_status _NOT_ENTERED).

(** A protected function in the method form, written as the docstrings of
    [nonreentrant] and [_reset_reentrancy_guard] say: [self.nonreentrant()]
    is called at the start of the function, then comes the code of the
    function, and [self._reset_reentrancy_guard()] is called at its end.
    There is no [try]: an exception of the body leaves the function at
    once. *)
Definition protected_by_method {A} (body : M (state D) A) : M (state D) A :=
  let* _ := nonreentrant in
  let* r := body in
  let* _ := _reset_reentrancy_guard in
  ret r.

(** [try: body finally: handler]: the handler runs on both exits and the
    outcome of the body is kept. *)
Definition try_finally {A} (body : M (state D) A) (handler : state D → state D)
  : M (state D) A :=
  λ s, let (s', r) := body s in (handler s', r).

(** [nonreentrant_decorator(func)] is the [wrapper] it returns; [func] is
    taken with its arguments applied. *)
Definition nonreentrant_decorator {A} (func : M (state D) A) : M (state D) A :=
  let* s := get in
  match _status s with
  | None =>
      raise (Exception "ReentrancyGuard: contract must include ReentrancyGuard mixin")
  | Some st =>
      if decide (st = _ENTERED) then
        raise (Exception "ReentrancyGuard: reentrant call")
      else
        let* _ := modify (set_status _ENTERED) in
        try_finally func (set_status _NOT_ENTERED)
  end.

End Methods.

Definition ReentrantCall : error := Exception "ReentrancyGuard: reentrant call".

End ReentrancyGuard.

(** ** Mintable.py and Burnable.py

    Both mixins look their base contract up with [hasattr]; the two bases
    of the library are modelled side by side.  A [Token] has [_mint],
    [_burn], [allowance] and [allowances] and no [owner_of]; an [NFT] has
    [_mint], [_burn], [owner_of] and [_is_approved_or_owner]. *)

Module Mintable.

Module OnToken.
Definition mint (to : string) (amount : Z) : M Token.state unit :=
  Token._mint to amount.
End OnToken.

Module OnNFT.
Definition mint (to : string) (amount : Z) : M NFT.state unit :=
  NFT._mint to amount.
End OnNFT.

End Mintable.

Module Burnable.

Module OnToken.

Definition burn (sender : string) (amount : Z) : M Token.state unit :=
  Token._burn sender amount.

Definition burn_from (sender account : string) (amount : Z) : M Token.state unit :=
  let* s := get in
  let current_allowance := Token.allowance s account sender in
  if decide (current_allowance < amount) then
    raise (Exception "Burnable: burn amount exceeds allowance")
  else
    let* _ := Token.store_allowance account sender (current_allowance - amount) in
    Token._burn account amount.

End OnToken.

Module OnNFT.

Definition burn (sender : string) (amount : Z) : M NFT.state unit :=
  let* owner := NFT.owner_of amount in
  if decide (owner ≠ sender) then
    raise (Exception "Burnable: caller is not token owner")
  else NFT._burn amount.

Definition burn_from (sender account : string) (amount : Z) : M NFT.state unit :=
  let* authorised := NFT._is_approved_or_owner sender amount in
  if negb authorised then
    raise (Exception "Burnable: caller is not owner nor approved")
  else NFT._burn amount.

End OnNFT.

End Burnable.

(** ** The error categories of the specification *)

Definition InsufficientAllowance : error := Exception "Token: insufficient allowance".
Definition InsufficientBalance : error := Exception "Token: insufficient balance".
Definition NotAuthorized : error :=
  Exception "NFT: transfer caller is not owner nor approved".
Definition OwnershipMismatch : error := Exception "NFT: transfer from incorrect owner".

(** ** Sequences of calls and further invariants *)

(** Runs calls of the fungible ledger one after the other, whatever each
    one does, and gives the final state. *)
Fixpoint token_run (cs : list Token.call) (s : Token.state) : Token.state :=
  match cs with
  | [] => s
  | c :: cs' => token_run cs' (Token.exec c s).1
  end.

(** The call is not a [transfer_from] of a negative amount. *)
Definition no_negative_transfer_from (c : Token.call) : Prop :=
  match c with
  | Token.TransferFrom _ _ _ amount => 0 ≤ amount
  | _ => True
  end.

(** Every approval slot of the collection belongs to a recorded token and
    names an address other than the owner of that token. *)
Definition approvals_invariant (s : NFT.state) : Prop :=
  ∀ token_id a, NFT.token_approvals s !! token_id = Some a →
    ∃ o, NFT.owners s !! token_id = Some o ∧ o ≠ a.

(** * Properties *)

(** ** Sums over dictionaries *)

Ltac run_M :=
  unfold void, bind, ret, raise, get, modify in *; simpl in *.

(** Runs a method symbolically, splitting on each of its tests. *)
Ltac step_M := repeat first [ progress run_M | case_decide ].

Section Sums.
Context {K : Type} `{Countable K}.

Lemma sum_values_empty : sum_values (∅ : gmap K Z) = 0.
Proof. unfold sum_values. apply map_fold_empty. Qed.

Lemma sum_values_insert_fresh (d : gmap K Z) k v :
  d !! k = None → sum_values (<[k:=v]> d) = v + sum_values d.
Proof.
  intros Hk. unfold sum_values.
  rewrite map_fold_insert_L; [done | intros; lia | done].
Qed.

(** Writing [d[k] = v] replaces the old contribution of [k] by [v]. *)
Lemma sum_values_insert (d : gmap K Z) k v :
  sum_values (<[k:=v]> d) = sum_values d - get0 d k + v.
Proof.
  unfold get0. destruct (d !! k) as [x|] eqn:Hk; simpl.
  - rewrite <- (insert_delete_eq d k v).
    rewrite <- (insert_delete_id d k x Hk) at 2.
    rewrite !sum_values_insert_fresh by apply lookup_delete_eq. lia.
  - rewrite sum_values_insert_fresh by done. lia.
Qed.

Lemma get0_insert_eq (d : gmap K Z) k v : get0 (<[k:=v]> d) k = v.
Proof. unfold get0. by rewrite lookup_insert_eq. Qed.

Lemma get0_insert_ne (d : gmap K Z) k k' v :
  k ≠ k' → get0 (<[k:=v]> d) k' = get0 d k'.
Proof. intros. unfold get0. by rewrite lookup_insert_ne. Qed.

Lemma get0_insert (d : gmap K Z) k k' v :
  get0 (<[k:=v]> d) k' = if decide (k = k') then v else get0 d k'.
Proof.
  case_decide; [subst; apply get0_insert_eq | by apply get0_insert_ne].
Qed.

Lemma get0_Some (d : gmap K Z) k n : d !! k = Some n → get0 d k = n.
Proof. intros Hk. unfold get0. by rewrite Hk. Qed.

(** A count that is not zero comes from an entry of the dictionary. *)
Lemma get0_positive (d : gmap K Z) k :
  1 ≤ get0 d k → ∃ n, d !! k = Some n ∧ 1 ≤ n.
Proof.
  unfold get0. destruct (d !! k) as [n|]; simpl; [eauto | lia].
Qed.

End Sums.

(** ** The fungible ledger keeps [sum(balances.values()) == total_supply] *)

Section TokenSupply.
Import Token.

Lemma init_supply n sy d : supply_invariant (init n sy d).
Proof. unfold supply_invariant. simpl. apply sum_values_empty. Qed.

(** Moving [amount] out of one entry and into another (or the same one)
    leaves the sum alone; this is the pair of writes shared by [transfer]
    and [transfer_from]. *)
Lemma sum_values_move (b : gmap string Z) src dst amount :
  sum_values
    (<[dst := get0 (<[src := get0 b src - amount]> b) dst + amount]>
       (<[src := get0 b src - amount]> b))
  = sum_values b.
Proof. rewrite !sum_values_insert. lia. Qed.

Lemma transfer_supply sender to amount s :
  supply_invariant s → supply_invariant (transfer sender to amount s).1.
Proof.
  unfold supply_invariant, transfer. intros Hs.
  step_M; try done.
  by rewrite sum_values_move.
Qed.

Lemma approve_supply sender spender amount s :
  supply_invariant s → supply_invariant (approve sender spender amount s).1.
Proof.
  unfold supply_invariant, approve, store_allowance. intros Hs.
  step_M; try done.
  destruct (allowances s !! sender) eqn:Ha; simpl.
  - by rewrite Ha.
  - by rewrite lookup_insert_eq.
Qed.

Lemma transfer_from_supply sender from_addr to amount s :
  supply_invariant s → supply_invariant (transfer_from sender from_addr to amount s).1.
Proof.
  unfold supply_invariant, transfer_from, store_allowance. intros Hs.
  step_M; try done.
  destruct (allowances s !! from_addr); simpl; by rewrite sum_values_move.
Qed.

Lemma _mint_supply account amount s :
  supply_invariant s → supply_invariant (_mint account amount s).1.
Proof.
  unfold supply_invariant, _mint. intros Hs.
  step_M; try done.
  rewrite sum_values_insert. lia.
Qed.

Lemma _burn_supply account amount s :
  supply_invariant s → supply_invariant (_burn account amount s).1.
Proof.
  unfold supply_invariant, _burn. intros Hs.
  step_M; try done.
  rewrite sum_values_insert. lia.
Qed.

(** Every call keeps the invariant, whether it returns or raises. *)
Lemma exec_supply c s :
  supply_invariant s → supply_invariant (exec c s).1.
Proof.
  intros Hs. destruct c; simpl.
  - pose proof (transfer_supply sender to amount s Hs) as Hp.
    unfold void, bind, ret. by destruct (transfer _ _ _ _) as [? []].
  - pose proof (approve_supply sender spender amount s Hs) as Hp.
    unfold void, bind, ret. by destruct (approve _ _ _ _) as [? []].
  - pose proof (transfer_from_supply sender from_addr to amount s Hs) as Hp.
    unfold void, bind, ret. by destruct (transfer_from _ _ _ _ _) as [? []].
  - by apply _mint_supply.
  - by apply _burn_supply.
Qed.

(** C1: in every state reached from a fresh token by calls of [transfer],
    [approve], [transfer_from], [_mint] and [_burn] that returned, the sum
    of all the values of [balances] is [total_supply]. *)
Theorem reachable_supply_invariant s :
  reachable s → sum_values (balances s) = total_supply s.
Proof.
  induction 1 as [n sy d | c s s' _ IH Hexec].
  - apply init_supply.
  - pose proof (exec_supply c s IH) as Hp. by rewrite Hexec in Hp.
Qed.

(** The first scenario of the specification is such a state: 1000 minted
    to A, of which A transfers 300 to B. *)
Lemma reachable_supply_invariant_run :
  let s1 := (exec (Mint "A" 1000) (init "X" "X" 18)).1 in
  let s2 := (exec (Transfer "A" "B" 300) s1).1 in
  reachable s2 ∧ sum_values (balances s2) = total_supply s2.
Proof.
  intros s1 s2.
  assert (Hr : reachable s2).
  { apply (reachable_step (Transfer "A" "B" 300) s1 s2).
    - apply (reachable_step (Mint "A" 1000) (init "X" "X" 18) s1).
      + apply reachable_init.
      + vm_compute. reflexivity.
    - vm_compute. reflexivity. }
  split; [exact Hr | exact (reachable_supply_invariant s2 Hr)].
Defined.

End TokenSupply.

(** ** The collection keeps its counts *)

Section NFTCounts.
Import NFT.

Lemma owned_by_empty a : owned_by a ∅ = 0.
Proof. unfold owned_by. by rewrite map_filter_empty, map_size_empty. Qed.

Lemma owned_by_insert_fresh a (o : gmap Z string) token_id x :
  o !! token_id = None →
  owned_by a (<[token_id := x]> o) = owned_by a o + indicator (x = a).
Proof.
  intros Hfresh. unfold owned_by, indicator.
  rewrite map_filter_insert. simpl. case_decide.
  - rewrite map_size_insert_None; [lia |].
    apply map_lookup_filter_None. by left.
  - rewrite delete_id by done. lia.
Qed.

Lemma owned_by_delete a (o : gmap Z string) token_id x :
  o !! token_id = Some x →
  owned_by a (delete token_id o) = owned_by a o - indicator (x = a).
Proof.
  intros Hx. unfold owned_by, indicator.
  rewrite map_filter_delete, map_size_delete. case_decide.
  - assert (Hin : filter (λ p : Z * string, p.2 = a) o !! token_id = Some x)
      by (by apply map_lookup_filter_Some).
    rewrite Hin.
    pose proof (map_size_ne_0_lookup_2 _ token_id (mk_is_Some _ _ Hin)). lia.
  - assert (Hout : filter (λ p : Z * string, p.2 = a) o !! token_id = None).
    { apply map_lookup_filter_None. right. intros y Hy. simpl. congruence. }
    rewrite Hout. simpl. lia.
Qed.

Lemma owned_by_overwrite a (o : gmap Z string) token_id x y :
  o !! token_id = Some x →
  owned_by a (<[token_id := y]> o)
  = owned_by a o - indicator (x = a) + indicator (y = a).
Proof.
  intros Hx. rewrite <- insert_delete_eq.
  rewrite owned_by_insert_fresh by apply lookup_delete_eq.
  by rewrite (owned_by_delete a o token_id x).
Qed.

Lemma owned_by_positive (o : gmap Z string) token_id a :
  o !! token_id = Some a → 1 ≤ owned_by a o.
Proof.
  intros Ha. unfold owned_by.
  assert (Hin : filter (λ p : Z * string, p.2 = a) o !! token_id = Some a)
    by (by apply map_lookup_filter_Some).
  pose proof (map_size_ne_0_lookup_2 _ token_id (mk_is_Some _ _ Hin)). lia.
Qed.

Lemma init_count n sy : count_invariant (init n sy).
Proof.
  split; simpl.
  - by rewrite sum_values_empty, map_size_empty.
  - intros a. by rewrite owned_by_empty.
Qed.

(** The authorisation check only reads, never raises, and says yes only
    for a token with a recorded, non-empty owner. *)
Lemma _is_approved_or_owner_reads spender token_id s :
  ∃ b, _is_approved_or_owner spender token_id s = (s, Ok b)
       ∧ (b = true →
          ∃ o, owners s !! token_id = Some o ∧ o ≠ ""
               ∧ (spender = o
                  ∨ default "" (token_approvals s !! token_id) = spender
                  ∨ is_approved_for_all s o spender = true)).
Proof.
  unfold _is_approved_or_owner, get_approved. run_M.
  destruct (owners s !! token_id) as [o|] eqn:Ho; simpl.
  - case_bool_decide; simpl.
    + step_M; rewrite ?Ho; simpl.
      * eexists; split; [done |]. intros _. exists o. auto.
      * case_decide; simpl.
        -- eexists; split; [done |]. intros _. exists o. auto.
        -- eexists; split; [done |]. intros Hb. exists o. auto.
    + eexists; split; [done | done].
  - eexists; split; [done | done].
Qed.

Lemma owner_of_reads token_id s :
  (∃ o, owner_of token_id s = (s, Ok o) ∧ owners s !! token_id = Some o ∧ o ≠ "")
  ∨ (∃ e, owner_of token_id s = (s, Raise e)).
Proof.
  unfold owner_of. run_M.
  destruct (owners s !! token_id) as [o|]; simpl; [| eauto].
  case_bool_decide; simpl; eauto.
Qed.

Lemma _mint_count to token_id s :
  count_invariant s → count_invariant (_mint to token_id s).1.
Proof.
  intros [Hsum Hcnt]. unfold _mint. step_M; try done.
  destruct (owners s !! token_id) as [o|] eqn:Ho; simpl; [done |].
  split; simpl.
  - rewrite sum_values_insert, map_size_insert_None by done. lia.
  - intros a. rewrite get0_insert, owned_by_insert_fresh by done.
    pose proof (Hcnt a) as Ha. pose proof (Hcnt to) as Ht.
    unfold indicator. repeat case_decide; subst; try done; lia.
Qed.

Lemma _burn_count token_id s :
  count_invariant s → count_invariant (_burn token_id s).1.
Proof.
  intros [Hsum Hcnt]. unfold _burn, clear_approval, decrement_balance. run_M.
  destruct (owners s !! token_id) as [o|] eqn:Ho; simpl; [| done].
  case_bool_decide; simpl; [| done].
  destruct (token_approvals s !! token_id); simpl;
    (destruct (balances s !! o) as [n|] eqn:Hn; simpl; [| done]);
    (split; simpl;
     [ rewrite sum_values_insert, (get0_Some _ _ _ Hn), map_size_delete, Ho;
       pose proof (map_size_ne_0_lookup_2 _ token_id (mk_is_Some _ _ Ho)); lia
     | intros a; rewrite get0_insert, (owned_by_delete a _ _ _ Ho);
       pose proof (Hcnt a) as Ha; pose proof (Hcnt o) as Hoo;
       rewrite (get0_Some _ _ _ Hn) in Hoo;
       unfold indicator; repeat case_decide; subst; try done; lia ]).
Qed.

Lemma transfer_from_count sender from_addr to token_id s :
  count_invariant s → count_invariant (transfer_from sender from_addr to token_id s).1.
Proof.
  intros [Hsum Hcnt]. unfold transfer_from, bind at 1.
  destruct (_is_approved_or_owner_reads sender token_id s) as (b & -> & _).
  destruct b; simpl; [| done].
  unfold clear_approval, decrement_balance, increment_balance.
  step_M; try done.
  assert (Ho : owners s !! token_id = Some from_addr).
  { destruct (decide (owners s !! token_id = Some from_addr)); [done | contradiction]. }
  destruct (token_approvals s !! token_id); simpl;
    (destruct (balances s !! from_addr) as [n|] eqn:Hn; simpl; [| done]);
    (split; simpl;
     [ rewrite !sum_values_insert, (get0_Some _ _ _ Hn),
         map_size_insert_Some by (by rewrite Ho); lia
     | intros a; rewrite !get0_insert, (owned_by_overwrite a _ _ _ to Ho);
       pose proof (Hcnt a) as Ha; pose proof (Hcnt from_addr) as Hf;
       pose proof (Hcnt to) as Ht;
       rewrite (get0_Some _ _ _ Hn) in Hf;
       unfold indicator; repeat case_decide; subst; try done; lia ]).
Qed.

Lemma approve_count sender to token_id s :
  count_invariant s → count_invariant (approve sender to token_id s).1.
Proof.
  intros Hinv. unfold approve, bind at 1.
  destruct (owner_of_reads token_id s) as [(o & -> & _) | (e & ->)]; [| done].
  step_M; try done.
  destruct (is_approved_for_all s o sender); simpl; done.
Qed.

Lemma set_approval_for_all_count sender operator approved s :
  count_invariant s →
  count_invariant (set_approval_for_all sender operator approved s).1.
Proof. intros Hinv. unfold set_approval_for_all. step_M; done. Qed.

(** Every call keeps the invariant, whether it returns or raises. *)
Lemma exec_count c s : count_invariant s → count_invariant (exec c s).1.
Proof.
  destruct c; simpl.
  - apply _mint_count.
  - apply _burn_count.
  - apply transfer_from_count.
  - apply approve_count.
  - apply set_approval_for_all_count.
Qed.

Lemma reachable_count s : reachable s → count_invariant s.
Proof.
  induction 1 as [n sy | c s s' _ IH Hexec].
  - apply init_count.
  - pose proof (exec_count c s IH) as Hp. by rewrite Hexec in Hp.
Qed.

(** C5: in every state reached from a fresh collection by calls of [_mint],
    [_burn], [transfer_from], [approve] and [set_approval_for_all] that
    returned, the values of [balances] add up to the number of entries of
    [owners], and the owner of every recorded token has an entry in
    [balances] that is at least 1. *)
Theorem reachable_counts_owners s :
  reachable s →
  sum_values (balances s) = Z.of_nat (size (owners s))
  ∧ ∀ token_id o, owners s !! token_id = Some o →
      ∃ n, balances s !! o = Some n ∧ 1 ≤ n.
Proof.
  intros Hr. destruct (reachable_count s Hr) as [Hsum Hcnt].
  split; [done |]. intros token_id o Ho.
  apply get0_positive. rewrite Hcnt. by eapply owned_by_positive.
Qed.

(** Such a state: tokens 1 and 2 minted to A, token 1 moved to B by A,
    token 2 burned. *)
Lemma reachable_counts_owners_run :
  let s1 := (exec (Mint "A" 1) (init "N" "N")).1 in
  let s2 := (exec (Mint "A" 2) s1).1 in
  let s3 := (exec (TransferFrom "A" "A" "B" 1) s2).1 in
  let s4 := (exec (Burn 2) s3).1 in
  reachable s4
  ∧ sum_values (balances s4) = Z.of_nat (size (owners s4))
  ∧ ∀ token_id o, owners s4 !! token_id = Some o →
      ∃ n, balances s4 !! o = Some n ∧ 1 ≤ n.
Proof.
  intros s1 s2 s3 s4.
  assert (Hr : reachable s4).
  { apply (reachable_step (Burn 2) s3 s4); [| vm_compute; reflexivity].
    apply (reachable_step (TransferFrom "A" "A" "B" 1) s2 s3);
      [| vm_compute; reflexivity].
    apply (reachable_step (Mint "A" 2) s1 s2); [| vm_compute; reflexivity].
    apply (reachable_step (Mint "A" 1) (init "N" "N") s1);
      [| vm_compute; reflexivity].
    apply reachable_init. }
  split; [exact Hr | exact (reachable_counts_owners s4 Hr)].
Defined.

End NFTCounts.

(** ** Balances below zero *)

Section TokenNonNegative.
Import Token.

Lemma init_nonnegative n sy d : nonnegative (init n sy d).
Proof. intros x v. simpl. by rewrite lookup_empty. Qed.

Lemma get0_nonnegative s x : nonnegative s → 0 ≤ get0 (balances s) x.
Proof.
  intros Hs. unfold get0. destruct (balances s !! x) as [n|] eqn:Hx; simpl.
  - by apply (Hs x).
  - lia.
Qed.

(** [transfer], [_mint] and [_burn] keep every balance at or above zero:
    the first two refuse an amount that is not positive, and [_burn] only
    ever writes [balance - amount] after checking [balance >= amount]. *)
Lemma transfer_nonnegative sender to amount s :
  nonnegative s → nonnegative (transfer sender to amount s).1.
Proof.
  intros Hs. unfold transfer. step_M; try done.
  pose proof (get0_nonnegative s to Hs). pose proof (get0_nonnegative s sender Hs).
  intros x n. simpl. rewrite get0_insert, !lookup_insert.
  repeat case_decide; subst; intros Hx; simplify_eq; try lia.
  by apply (Hs x).
Qed.

Lemma _mint_nonnegative account amount s :
  nonnegative s → nonnegative (_mint account amount s).1.
Proof.
  intros Hs. unfold _mint. step_M; try done.
  pose proof (get0_nonnegative s account Hs).
  intros x n. simpl. rewrite lookup_insert.
  case_decide; subst; intros Hx; simplify_eq; try lia.
  by apply (Hs x).
Qed.

Lemma _burn_nonnegative account amount s :
  nonnegative s → nonnegative (_burn account amount s).1.
Proof.
  intros Hs. unfold _burn. step_M; try done.
  intros x n. simpl. rewrite lookup_insert.
  case_decide; subst; intros Hx; simplify_eq; try lia.
  by apply (Hs x).
Qed.

(** C2: [transfer_from] has no test on the sign of [amount].  On a fresh
    token where A approved B for 0, [transfer_from(A, C, -5)] called by B
    returns [True] and leaves [balances[C] == -5]; nothing raises
    [InsufficientBalance]. *)
Theorem transfer_from_negative_amount :
  let s1 := (approve "A" "B" 0 (init "X" "X" 18)).1 in
  let r := transfer_from "B" "A" "C" (-5) s1 in
  nonnegative s1
  ∧ r.2 = Ok true
  ∧ balances r.1 !! "C" = Some (-5)
  ∧ balances r.1 !! "A" = Some 5
  ∧ allowance r.1 "A" "B" = 5.
Proof.
  split.
  - intros x n. vm_compute. discriminate.
  - vm_compute. done.
Qed.

End TokenNonNegative.

(** ** Failure and partial writes *)

Section Atomicity.

Lemma token_transfer_atomic sender to amount :
  atomic (Token.transfer sender to amount).
Proof. intros s e. unfold Token.transfer. step_M; done. Qed.

Lemma token_approve_atomic sender spender amount :
  atomic (Token.approve sender spender amount).
Proof.
  intros s e. unfold Token.approve, Token.store_allowance. step_M; try done.
  destruct (Token.allowances s !! sender) eqn:Ha; simpl.
  - by rewrite Ha.
  - by rewrite lookup_insert_eq.
Qed.

Lemma token__mint_atomic account amount : atomic (Token._mint account amount).
Proof. intros s e. unfold Token._mint. step_M; done. Qed.

Lemma token__burn_atomic account amount : atomic (Token._burn account amount).
Proof. intros s e. unfold Token._burn. step_M; done. Qed.

Lemma ownable_transfer_ownership_atomic {D} sender new_owner :
  atomic (Ownable.transfer_ownership (D:=D) sender new_owner).
Proof.
  intros s e. unfold Ownable.transfer_ownership, Ownable.only_owner.
  step_M; done.
Qed.

Lemma ownable_renounce_ownership_atomic {D} sender :
  atomic (Ownable.renounce_ownership (D:=D) sender).
Proof.
  intros s e. unfold Ownable.renounce_ownership, Ownable.only_owner.
  step_M; done.
Qed.

Lemma pausable_pause_atomic {D} sender : atomic (Pausable.pause (D:=D) sender).
Proof.
  intros s e. unfold Pausable.pause, Pausable.when_not_paused. run_M.
  by destruct (Pausable.paused s).
Qed.

Lemma pausable_unpause_atomic {D} sender : atomic (Pausable.unpause (D:=D) sender).
Proof.
  intros s e. unfold Pausable.unpause, Pausable.when_paused. run_M.
  by destruct (Pausable.paused s).
Qed.

Lemma reentrancy_nonreentrant_atomic {D} :
  atomic (ReentrancyGuard.nonreentrant (D:=D)).
Proof.
  intros s e. unfold ReentrancyGuard.nonreentrant. run_M.
  destruct (ReentrancyGuard._status s); simpl; [| done].
  by case_decide.
Qed.

(** C3: two operations raise after they have written.  [Burnable.burn_from]
    lowers the allowance before [_burn] tests the balance: with A holding
    nothing and B approved for 50, [burn_from(A, 50)] by B raises and the
    allowance has gone from 50 to 0.  [Token.transfer_from] writes both
    balances before the allowance subscript raises [KeyError]: on a fresh
    token [transfer_from(A, C, -5)] by B raises and leaves A with 5 and C
    with -5. *)
Theorem failing_calls_keep_their_writes :
  (let s1 := (Token.approve "A" "B" 50 (Token.init "X" "X" 18)).1 in
   let r := Burnable.OnToken.burn_from "B" "A" 50 s1 in
   r.2 = Raise (Exception "Token: burn amount exceeds balance")
   ∧ Token.allowance s1 "A" "B" = 50
   ∧ Token.allowance r.1 "A" "B" = 0)
  ∧
  (let s0 := Token.init "X" "X" 18 in
   let r := Token.transfer_from "B" "A" "C" (-5) s0 in
   r.2 = Raise KeyError
   ∧ Token.balances s0 = ∅
   ∧ Token.balances r.1 !! "A" = Some 5
   ∧ Token.balances r.1 !! "C" = Some (-5)).
Proof. vm_compute. done. Qed.

End Atomicity.

(** ** What a delegated transfer of the fungible ledger does *)

Section TokenTransferFrom.
Import Token.

(** A call of [transfer_from] that returns has passed the three tests and
    made its three writes. *)
Lemma transfer_from_returns sender from_addr to amount s s' :
  transfer_from sender from_addr to amount s = (s', Ok true) →
  to ≠ ZERO_ADDRESS
  ∧ ∃ d, allowances s !! from_addr = Some d
    ∧ balances s'
      = <[to := get0 (<[from_addr := get0 (balances s) from_addr - amount]> (balances s)) to
                + amount]>
          (<[from_addr := get0 (balances s) from_addr - amount]> (balances s))
    ∧ allowances s'
      = <[from_addr := <[sender := allowance s from_addr sender - amount]> d]>
          (allowances s).
Proof.
  unfold transfer_from, store_allowance. step_M; try done.
  destruct (allowances s !! from_addr) as [d|] eqn:Hd; simpl; [| done].
  intros [= <-]. split; [done |]. exists d. simpl.
  unfold allowance. rewrite ?Hd. done.
Qed.

Lemma approve_returns sender spender amount s s' :
  approve sender spender amount s = (s', Ok true) →
  balances s' = balances s ∧ allowance s' sender spender = amount.
Proof.
  unfold approve, store_allowance, allowance. step_M; try done.
  destruct (allowances s !! sender) as [d|] eqn:Hd; simpl.
  - rewrite Hd. simpl. intros [= <-]. simpl.
    by rewrite lookup_insert_eq, get0_insert_eq.
  - rewrite lookup_insert_eq. simpl. intros [= <-]. simpl.
    by rewrite lookup_insert_eq, get0_insert_eq.
Qed.

(** C6 (refuted as stated): when the source and the destination are the
    same address, a successful [transfer_from] leaves that balance where it
    was.  A holds 100 and has approved B for 50; [transfer_from(A, A, 50)]
    by B returns [True] and A still holds 100, not 50. *)
Lemma transfer_from_to_self_keeps_balance :
  let s := (approve "A" "B" 50 (_mint "A" 100 (init "X" "X" 18)).1).1 in
  let r := transfer_from "B" "A" "A" 50 s in
  r.2 = Ok true
  ∧ balance_of s "A" = 100
  ∧ balance_of r.1 "A" = 100
  ∧ balance_of r.1 "A" ≠ balance_of s "A" - 50.
Proof. vm_compute. repeat split; done. Qed.

(** C6 (amended): a successful [transfer_from(from, to, amount)] lowers
    [allowance(from, caller)] by exactly [amount]; when [from] and [to]
    differ it lowers the balance of [from] by [amount] and raises the
    balance of [to] by [amount], and when they are the same address that
    balance is unchanged.  If the state before it came from a successful
    [approve(caller, amount)] by [from], the allowance afterwards is 0, the
    balance of a distinct [to] is what it was before the approval plus
    [amount], and a following [transfer_from(from, to, 1)] by the same
    caller fails with the insufficient-allowance error and writes nothing. *)
Theorem transfer_from_effect sender from_addr to amount s s' :
  transfer_from sender from_addr to amount s = (s', Ok true) →
  allowance s' from_addr sender = allowance s from_addr sender - amount
  ∧ (from_addr ≠ to →
       balance_of s' from_addr = balance_of s from_addr - amount
       ∧ balance_of s' to = balance_of s to + amount)
  ∧ (from_addr = to → balance_of s' from_addr = balance_of s from_addr)
  ∧ (∀ s0, approve from_addr sender amount s0 = (s, Ok true) →
       allowance s' from_addr sender = 0
       ∧ (from_addr ≠ to → balance_of s' to = balance_of s0 to + amount)
       ∧ transfer_from sender from_addr to 1 s' = (s', Raise InsufficientAllowance)).
Proof.
  intros Hrun.
  destruct (transfer_from_returns _ _ _ _ _ _ Hrun) as (Hto & d & Hd & Hbal & Hall).
  assert (Hallow : allowance s' from_addr sender = allowance s from_addr sender - amount).
  { unfold allowance at 1. rewrite Hall, lookup_insert_eq. apply get0_insert_eq. }
  assert (Hmove : from_addr ≠ to →
            balance_of s' from_addr = balance_of s from_addr - amount
            ∧ balance_of s' to = balance_of s to + amount).
  { intros Hne. unfold balance_of. rewrite Hbal. split.
    - rewrite get0_insert_ne by done. apply get0_insert_eq.
    - rewrite get0_insert_eq. by rewrite get0_insert_ne. }
  split; [exact Hallow |]. split; [exact Hmove |]. split.
  { intros <-. unfold balance_of. rewrite Hbal, !get0_insert_eq. lia. }
  intros s0 Happ. destruct (approve_returns _ _ _ _ _ Happ) as [Hb Ha].
  split; [lia |]. split.
  - intros Hne. destruct (Hmove Hne) as [_ ->]. unfold balance_of. by rewrite Hb.
  - unfold transfer_from. step_M; try done; lia.
Qed.

(** The scenario of the specification, run: A is minted 1000, approves B
    for 50, and B moves 50 from A to C. *)
Lemma transfer_from_effect_scenario :
  let s0 := (_mint "A" 1000 (init "X" "X" 18)).1 in
  let s := (approve "A" "B" 50 s0).1 in
  let s' := (transfer_from "B" "A" "C" 50 s).1 in
  transfer_from "B" "A" "C" 50 s = (s', Ok true)
  ∧ approve "A" "B" 50 s0 = (s, Ok true)
  ∧ allowance s' "A" "B" = 0
  ∧ balance_of s' "C" = 50
  ∧ transfer_from "B" "A" "C" 1 s' = (s', Raise InsufficientAllowance).
Proof.
  intros s0 s s'.
  assert (Hrun : transfer_from "B" "A" "C" 50 s = (s', Ok true))
    by (vm_compute; reflexivity).
  assert (Happ : approve "A" "B" 50 s0 = (s, Ok true))
    by (vm_compute; reflexivity).
  destruct (transfer_from_effect "B" "A" "C" 50 s s' Hrun) as (_ & _ & _ & Hsc).
  destruct (Hsc s0 Happ) as (Hzero & Hc & Hnext).
  repeat split; try done.
Defined.

End TokenTransferFrom.

(** ** What a transfer of the collection does *)

Section NFTTransferFrom.
Import NFT.

(** A call of [transfer_from] that returns has passed its three tests, found
    a count for [from], and made its writes. *)
Lemma nft_transfer_from_returns sender from_addr to token_id s s' :
  transfer_from sender from_addr to token_id s = (s', Ok tt) →
  to ≠ ZERO_ADDRESS ∧ from_addr ≠ ""
  ∧ owners s !! token_id = Some from_addr
  ∧ owners s' = <[token_id := to]> (owners s)
  ∧ token_approvals s' !! token_id = None
  ∧ operator_approvals s' = operator_approvals s
  ∧ ∃ n, balances s !! from_addr = Some n
    ∧ balances s'
      = <[to := get0 (<[from_addr := n - 1]> (balances s)) to + 1]>
          (<[from_addr := n - 1]> (balances s)).
Proof.
  unfold transfer_from, bind at 1.
  destruct (_is_approved_or_owner_reads sender token_id s) as (b & -> & Hb).
  destruct b; simpl; [| done].
  destruct Hb as (o & Ho & Hne & _); [done |].
  unfold clear_approval, decrement_balance, increment_balance.
  step_M; try done.
  assert (Hfrom : owners s !! token_id = Some from_addr).
  { destruct (decide (owners s !! token_id = Some from_addr)); [done | contradiction]. }
  assert (o = from_addr) as -> by congruence.
  destruct (token_approvals s !! token_id) eqn:Hap; simpl;
    (destruct (balances s !! from_addr) as [n|] eqn:Hn; simpl; [| done]);
    intros [= <-]; simpl;
    (repeat split; try done; first [ apply lookup_delete_eq | by exists n ]).
Qed.

(** C7 (refuted as stated): a transfer of a token to its current owner
    changes no count, and the caller that made it can make it again.  B is
    an operator of A and approved for token 1; [transfer_from(A, A, 1)] by B
    returns, A still counts 1 token, and the same call by B returns again. *)
Lemma nft_transfer_to_self_repeats :
  let s0 := (_mint "A" 1 (init "N" "N")).1 in
  let s1 := (set_approval_for_all "A" "B" true s0).1 in
  let s2 := (approve "A" "B" 1 s1).1 in
  let r := transfer_from "B" "A" "A" 1 s2 in
  token_approvals s2 !! 1 = Some "B"
  ∧ r.2 = Ok tt
  ∧ get0 (balances s2) "A" = 1
  ∧ get0 (balances r.1) "A" = 1
  ∧ (transfer_from "B" "A" "A" 1 r.1).2 = Ok tt.
Proof. vm_compute. repeat split; done. Qed.

(** C7 (amended): after a successful [transfer_from(from, to, token_id)]
    the approval slot of the token is empty ([get_approved] returns the
    empty string) and [owners[token_id] == to].  When [from] and [to]
    differ, the count of [from] is one lower, the count of [to] is one
    higher, and the same transfer asked again by any caller raises, for
    lack of authorisation or for the wrong owner, and writes nothing.  When
    [from] and [to] are the same address the counts are unchanged, and the
    repeated call raises for lack of authorisation when its caller is not
    that owner, not one of its operators and not the empty string. *)
Theorem nft_transfer_from_effect sender from_addr to token_id s s' :
  transfer_from sender from_addr to token_id s = (s', Ok tt) →
  get_approved token_id s' = (s', Ok "")
  ∧ owners s' !! token_id = Some to
  ∧ (from_addr ≠ to →
       get0 (balances s') from_addr = get0 (balances s) from_addr - 1
       ∧ get0 (balances s') to = get0 (balances s) to + 1
       ∧ ∀ caller, ∃ e,
           transfer_from caller from_addr to token_id s' = (s', Raise e)
           ∧ (e = NotAuthorized ∨ e = OwnershipMismatch))
  ∧ (from_addr = to →
       get0 (balances s') from_addr = get0 (balances s) from_addr
       ∧ (sender ≠ from_addr → sender ≠ "" →
          is_approved_for_all s from_addr sender = false →
          transfer_from sender from_addr to token_id s' = (s', Raise NotAuthorized))).
Proof.
  intros Hrun.
  destruct (nft_transfer_from_returns _ _ _ _ _ _ Hrun)
    as (Hto & Hfrom & Ho & Ho' & Hap & Hop & n & Hn & Hbal).
  assert (Howner : owners s' !! token_id = Some to)
    by (rewrite Ho'; apply lookup_insert_eq).
  split.
  { unfold get_approved. run_M. by rewrite Howner, Hap. }
  split; [done |]. split.
  - intros Hne. rewrite Hbal, !get0_insert, (get0_Some _ _ _ Hn).
    repeat case_decide; try done. repeat split; try done.
    intros caller. unfold transfer_from, bind at 1.
    destruct (_is_approved_or_owner_reads caller token_id s') as (b & -> & _).
    destruct b; simpl; [| by eexists; split; [reflexivity | left]].
    step_M; try done.
    + eexists; split; [reflexivity | by right].
    + congruence.
  - intros <-. split.
    + rewrite Hbal, !get0_insert, (get0_Some _ _ _ Hn).
      repeat case_decide; try done. lia.
    + intros Hs Hs' Hnop. unfold transfer_from, bind at 1.
      unfold _is_approved_or_owner, get_approved, is_approved_for_all. run_M.
      rewrite Howner. simpl. rewrite bool_decide_eq_true_2 by done.
      step_M; try done. rewrite Howner, Hap. simpl.
      step_M; try done.
      unfold is_approved_for_all in Hnop. rewrite Hop, Hnop. by simpl.
Qed.

(** The scenario of the specification, run: token 1 is minted to A, A
    approves B for it, and B moves it from A to C. *)
Lemma nft_transfer_from_effect_scenario :
  let s0 := (_mint "A" 1 (init "N" "N")).1 in
  let s1 := (approve "A" "B" 1 s0).1 in
  let s' := (transfer_from "B" "A" "C" 1 s1).1 in
  transfer_from "B" "A" "C" 1 s1 = (s', Ok tt)
  ∧ get_approved 1 s' = (s', Ok "")
  ∧ owners s' !! 1 = Some "C"
  ∧ transfer_from "B" "A" "C" 1 s' = (s', Raise NotAuthorized).
Proof.
  intros s0 s1 s'.
  assert (Hrun : transfer_from "B" "A" "C" 1 s1 = (s', Ok tt))
    by (vm_compute; reflexivity).
  destruct (nft_transfer_from_effect "B" "A" "C" 1 s1 s' Hrun) as (Hap & Ho & _).
  repeat split; try done.
Defined.

(** [_mint] to an address other than the zero address is refused exactly
    for the token ids that have an entry in [owners]. *)
Lemma _mint_refuses_recorded_only to token_id s :
  to ≠ ZERO_ADDRESS →
  (_mint to token_id s).2 = Ok tt ↔ owners s !! token_id = None.
Proof.
  intros Hto. unfold _mint, increment_balance. step_M; try done.
  destruct (owners s !! token_id); simpl; split; done.
Qed.

(** C9: after a successful [_burn(token_id)], [_mint(to, token_id)] with
    [to] other than the zero address returns and records [to] as the owner
    of [token_id]. *)
Theorem burned_token_can_be_minted token_id to s s1 :
  _burn token_id s = (s1, Ok tt) →
  to ≠ ZERO_ADDRESS →
  ∃ s2, _mint to token_id s1 = (s2, Ok tt) ∧ owners s2 !! token_id = Some to.
Proof.
  intros Hburn Hto.
  assert (Hgone : owners s1 !! token_id = None).
  { revert Hburn. unfold _burn, clear_approval, decrement_balance. run_M.
    destruct (owners s !! token_id) as [o|]; simpl; [| done].
    case_bool_decide; simpl; [| done].
    destruct (token_approvals s !! token_id); simpl;
      (destruct (balances s !! o); simpl; [| done]);
      intros [= <-]; simpl; apply lookup_delete_eq. }
  unfold _mint, increment_balance. step_M; try done.
  rewrite Hgone. simpl. eexists. split; [done |]. simpl. apply lookup_insert_eq.
Qed.

Lemma burned_token_can_be_minted_run :
  let s := (_mint "A" 7 (init "N" "N")).1 in
  let s1 := (_burn 7 s).1 in
  _burn 7 s = (s1, Ok tt) ∧ "B" ≠ ZERO_ADDRESS
  ∧ ∃ s2, _mint "B" 7 s1 = (s2, Ok tt) ∧ owners s2 !! 7 = Some "B".
Proof.
  intros s s1.
  assert (Hburn : _burn 7 s = (s1, Ok tt)) by (vm_compute; reflexivity).
  assert (Hto : "B" ≠ ZERO_ADDRESS) by discriminate.
  split; [exact Hburn |]. split; [exact Hto |].
  exact (burned_token_can_be_minted 7 "B" s s1 Hburn Hto).
Defined.

(** C10: [safe_transfer_from] and [transfer_from] are the same function of
    the caller, the arguments and the starting state: same final state
    (ledger and emitted events) and same outcome, value or error. *)
Theorem safe_transfer_from_is_transfer_from sender from_addr to token_id s :
  safe_transfer_from sender from_addr to token_id s
  = transfer_from sender from_addr to token_id s.
Proof.
  unfold safe_transfer_from, bind, ret.
  by destruct (transfer_from sender from_addr to token_id s) as [s' [[]|e]].
Qed.

End NFTTransferFrom.

(** ** Ownership once renounced *)

Section OwnableRenounce.
Context {D : Type}.
Import Ownable.

Lemma only_owner_refuses sender (s : state D) :
  sender ≠ owner s → only_owner sender s = (s, Raise NotOwner).
Proof. intros Hne. unfold only_owner. step_M; done. Qed.

Lemma only_owner_admits (s : state D) : only_owner (owner s) s = (s, Ok tt).
Proof. unfold only_owner. step_M; done. Qed.

(** Without an owner, every call of a caller other than the zero address
    stops at the gate and writes nothing. *)
Lemma exec_unowned c (s : state D) :
  owner s = ZERO_ADDRESS → caller c ≠ ZERO_ADDRESS →
  exec c s = (s, Raise NotOwner).
Proof.
  intros Ho Hc.
  assert (Hgate : only_owner (caller c) s = (s, Raise NotOwner))
    by (apply only_owner_refuses; congruence).
  destruct c; simpl in *.
  - unfold transfer_ownership, bind at 1. by rewrite Hgate.
  - unfold renounce_ownership, bind at 1. by rewrite Hgate.
  - unfold bind at 1. by rewrite Hgate.
Qed.

Lemma run_unowned cs (s : state D) :
  owner s = ZERO_ADDRESS →
  Forall (λ c, caller c ≠ ZERO_ADDRESS) cs →
  run cs s = (s, (λ _, Raise NotOwner) <$> cs).
Proof.
  intros Ho. induction 1 as [| c cs Hc _ IH]; simpl; [done |].
  by rewrite (exec_unowned c s Ho Hc), IH.
Qed.

Lemma renounce_ownership_returns sender (s s' : state D) :
  renounce_ownership sender s = (s', Ok tt) →
  sender = owner s ∧ owner s' = ZERO_ADDRESS ∧ rest s' = rest s.
Proof.
  unfold renounce_ownership, only_owner. step_M; try done.
  intros [= <-]. simpl. done.
Qed.

(** The gate compares the caller with the stored owner and nothing else: a
    caller that the host reports as the zero address passes it on a
    contract without owner. *)
Remark zero_address_caller_passes_gate (s : state D) :
  owner s = ZERO_ADDRESS → only_owner ZERO_ADDRESS s = (s, Ok tt).
Proof. intros <-. apply only_owner_admits. Qed.

(** C8: after a successful [renounce_ownership()] the owner is the zero
    address; whatever calls follow from callers other than the zero address
    ([transfer_ownership], [renounce_ownership], any method gated by
    [only_owner]), each of them fails with the not-the-owner error, the
    state is not written, and the owner is still the zero address. *)
Theorem renounced_stays_unowned sender (s s' : state D) (cs : list call) :
  renounce_ownership sender s = (s', Ok tt) →
  Forall (λ c, caller c ≠ ZERO_ADDRESS) cs →
  owner s' = ZERO_ADDRESS
  ∧ (run cs s').1 = s'
  ∧ owner (run cs s').1 = ZERO_ADDRESS
  ∧ Forall (λ r, r = Raise NotOwner) (run cs s').2.
Proof.
  intros Hren Hcs.
  destruct (renounce_ownership_returns _ _ _ Hren) as (_ & Ho & _).
  rewrite (run_unowned cs s' Ho Hcs). simpl.
  repeat split; try done.
  apply Forall_fmap. by apply Forall_true.
Qed.

End OwnableRenounce.

(** The scenario of the specification, run: D deploys, hands ownership to
    E, E renounces; afterwards E, D and F all fail at the gate. *)
Lemma renounced_stays_unowned_run :
  let s0 := Ownable.__init_mixin__ "D" tt in
  let s1 := (Ownable.transfer_ownership "D" "E" s0).1 in
  let s2 := (Ownable.renounce_ownership "E" s1).1 in
  let cs := [Ownable.TransferOwnership "E" "F";
             Ownable.RenounceOwnership "D";
             Ownable.Gated "F" (modify (Ownable.set_owner "F"))] in
  Ownable.renounce_ownership "E" s1 = (s2, Ok tt)
  ∧ Forall (λ c, Ownable.caller c ≠ ZERO_ADDRESS) cs
  ∧ Ownable.owner (Ownable.run cs s2).1 = ZERO_ADDRESS
  ∧ Forall (λ r, r = Raise Ownable.NotOwner) (Ownable.run cs s2).2.
Proof.
  intros s0 s1 s2 cs.
  assert (Hren : Ownable.renounce_ownership "E" s1 = (s2, Ok tt))
    by (vm_compute; reflexivity).
  assert (Hcs : Forall (λ c, Ownable.caller c ≠ ZERO_ADDRESS) cs)
    by (repeat constructor; discriminate).
  destruct (renounced_stays_unowned "E" s1 s2 cs Hren Hcs) as (_ & _ & Ho & Hrs).
  repeat split; done.
Defined.

(** ** The reentrancy latch *)

Section Reentrancy.
Context {D : Type}.
Import ReentrancyGuard.

(** The method form: [nonreentrant()] refuses a second entry and otherwise
    latches; [_reset_reentrancy_guard()] is the separate call that
    releases. *)
Lemma nonreentrant_refuses (s : state D) :
  _status s = Some _ENTERED → nonreentrant s = (s, Raise ReentrantCall).
Proof. intros Hs. unfold nonreentrant. run_M. by rewrite Hs. Qed.

Lemma nonreentrant_enters (s : state D) st :
  _status s = Some st → st ≠ _ENTERED →
  nonreentrant s = (set_status _ENTERED s, Ok tt).
Proof.
  intros Hs Hst. unfold nonreentrant. run_M. rewrite Hs.
  by case_decide.
Qed.

Lemma _reset_reentrancy_guard_releases (s : state D) :
  _status (_reset_reentrancy_guard s).1 = Some _NOT_ENTERED.
Proof. done. Qed.

(** The decorator form refuses in the same way, before running anything. *)
Lemma decorator_refuses {A} (func : M (state D) A) (s : state D) :
  _status s = Some _ENTERED →
  nonreentrant_decorator func s = (s, Raise ReentrantCall).
Proof. intros Hs. unfold nonreentrant_decorator. run_M. by rewrite Hs. Qed.

(** When it does enter, the wrapper runs the function on the latched state
    and releases in its [finally]. *)
Lemma decorator_runs {A} (func : M (state D) A) (s : state D) st :
  _status s = Some st → st ≠ _ENTERED →
  nonreentrant_decorator func s
  = (set_status _NOT_ENTERED (func (set_status _ENTERED s)).1,
     (func (set_status _ENTERED s)).2).
Proof.
  intros Hs Hst. unfold nonreentrant_decorator, try_finally. run_M.
  rewrite Hs. case_decide; [done |]. simpl.
  by destruct (func (set_status _ENTERED s)).
Qed.

(** The decorator form does what a guard has to do.  While the status is
    [_ENTERED], a call into the protection, by the method
    [nonreentrant()] or through a wrapped function, fails with the
    reentrant-call error and changes nothing.  A wrapped call that enters
    runs its body with the status [_ENTERED], returns or raises what the
    body returns or raises, and leaves the status [_NOT_ENTERED] in both
    cases; in particular a wrapped function whose body calls a wrapped
    function gets the reentrant-call error from the nested call and the
    status is [_NOT_ENTERED] once the outer call is over. *)
Theorem guard_released_after_protected_call
    {A} (func : M (state D) A) (s : state D) st :
  _status s = Some st → st ≠ _ENTERED →
  (∀ s_in : state D, _status s_in = Some _ENTERED →
     nonreentrant s_in = (s_in, Raise ReentrantCall)
     ∧ nonreentrant_decorator func s_in = (s_in, Raise ReentrantCall))
  ∧ (nonreentrant_decorator func s).2 = (func (set_status _ENTERED s)).2
  ∧ _status (nonreentrant_decorator func s).1 = Some _NOT_ENTERED
  ∧ (nonreentrant_decorator (nonreentrant_decorator func) s).2
    = Raise ReentrantCall
  ∧ _status (nonreentrant_decorator (nonreentrant_decorator func) s).1
    = Some _NOT_ENTERED.
Proof.
  intros Hs Hst. split.
  { intros s_in Hin. split.
    - by apply nonreentrant_refuses.
    - by apply decorator_refuses. }
  rewrite (decorator_runs func s st Hs Hst).
  rewrite (decorator_runs (nonreentrant_decorator func) s st Hs Hst).
  rewrite (decorator_refuses func (set_status _ENTERED s)) by done.
  done.
Qed.

End Reentrancy.

(** A protected call whose body raises after a write: the write stays, the
    error comes out, and the latch is released. *)
Lemma guard_released_after_protected_call_run :
  let body : M (ReentrancyGuard.state Z) unit :=
    let* _ := modify (λ s, ReentrancyGuard.mk (ReentrancyGuard._status s) 7) in
    raise (Exception "boom") in
  let s := ReentrancyGuard.mk (Some ReentrancyGuard._NOT_ENTERED) 0 in
  ReentrancyGuard._status s = Some ReentrancyGuard._NOT_ENTERED
  ∧ ReentrancyGuard._NOT_ENTERED ≠ ReentrancyGuard._ENTERED
  ∧ (ReentrancyGuard.nonreentrant_decorator body s).2 = Raise (Exception "boom")
  ∧ ReentrancyGuard._status (ReentrancyGuard.nonreentrant_decorator body s).1
    = Some ReentrancyGuard._NOT_ENTERED.
Proof.
  intros body s.
  assert (Hs : ReentrancyGuard._status s = Some ReentrancyGuard._NOT_ENTERED)
    by reflexivity.
  assert (Hst : ReentrancyGuard._NOT_ENTERED ≠ ReentrancyGuard._ENTERED)
    by discriminate.
  destruct (guard_released_after_protected_call body s _ Hs Hst)
    as (_ & Hres & Hrel & _).
  repeat split; try done.
Defined.

(** ** The method form of the guard keeps the latch when the body raises *)

Section ReentrancyMethodForm.
Context {D : Type}.
Import ReentrancyGuard.

(** A method-form protected call whose body returns does release. *)
Lemma protected_by_method_returns {A} (body : M (state D) A) (s s_b : state D) st a :
  _status s = Some st → st ≠ _ENTERED →
  body (set_status _ENTERED s) = (s_b, Ok a) →
  protected_by_method body s = (set_status _NOT_ENTERED s_b, Ok a).
Proof.
  intros Hs Hst Hbody. unfold protected_by_method, bind at 1.
  rewrite (nonreentrant_enters s st Hs Hst).
  unfold bind at 1. rewrite Hbody. done.
Qed.

(** C4: the method form of the guard does not release on failure.  A
    function protected by [nonreentrant()] at its start and
    [_reset_reentrancy_guard()] at its end, entered with the status not
    [_ENTERED], whose body raises without touching the status: the call
    raises the error of the body and the status is still [_ENTERED], so
    every later protected call of this form fails with the reentrant-call
    error although nothing is in progress.  The same body wrapped by
    [nonreentrant_decorator] raises the same error and leaves the status
    [_NOT_ENTERED]. *)
Theorem method_guard_stays_latched
    {A} (body : M (state D) A) (s s_b : state D) st e :
  _status s = Some st → st ≠ _ENTERED →
  body (set_status _ENTERED s) = (s_b, Raise e) →
  _status s_b = Some _ENTERED →
  protected_by_method body s = (s_b, Raise e)
  ∧ _status (protected_by_method body s).1 = Some _ENTERED
  ∧ (∀ next : M (state D) A,
       protected_by_method next (protected_by_method body s).1
       = ((protected_by_method body s).1, Raise ReentrantCall))
  ∧ (nonreentrant_decorator body s).2 = Raise e
  ∧ _status (nonreentrant_decorator body s).1 = Some _NOT_ENTERED.
Proof.
  intros Hs Hst Hbody Hlatched.
  assert (Hrun : protected_by_method body s = (s_b, Raise e)).
  { unfold protected_by_method, bind at 1.
    rewrite (nonreentrant_enters s st Hs Hst).
    unfold bind at 1. by rewrite Hbody. }
  rewrite Hrun. simpl. split; [done |]. split; [done |]. split.
  - intros next. unfold protected_by_method, bind at 1.
    by rewrite (nonreentrant_refuses s_b Hlatched).
  - rewrite (decorator_runs body s st Hs Hst), Hbody. done.
Qed.

End ReentrancyMethodForm.

(** The failing call, run: the body writes 7 and raises. *)
Lemma method_guard_stays_latched_run :
  let body : M (ReentrancyGuard.state Z) unit :=
    let* _ := modify (λ s, ReentrancyGuard.mk (ReentrancyGuard._status s) 7) in
    raise (Exception "boom") in
  let s := ReentrancyGuard.mk (Some ReentrancyGuard._NOT_ENTERED) 0 in
  let s_b := ReentrancyGuard.mk (Some ReentrancyGuard._ENTERED) 7 in
  ReentrancyGuard._status s = Some ReentrancyGuard._NOT_ENTERED
  ∧ ReentrancyGuard._NOT_ENTERED ≠ ReentrancyGuard._ENTERED
  ∧ body (ReentrancyGuard.set_status ReentrancyGuard._ENTERED s)
    = (s_b, Raise (Exception "boom"))
  ∧ ReentrancyGuard._status s_b = Some ReentrancyGuard._ENTERED
  ∧ ReentrancyGuard.protected_by_method body s = (s_b, Raise (Exception "boom"))
  ∧ ReentrancyGuard._status (ReentrancyGuard.protected_by_method body s).1
    = Some ReentrancyGuard._ENTERED
  ∧ ReentrancyGuard._status (ReentrancyGuard.nonreentrant_decorator body s).1
    = Some ReentrancyGuard._NOT_ENTERED.
Proof.
  intros body s s_b.
  assert (Hs : ReentrancyGuard._status s = Some ReentrancyGuard._NOT_ENTERED)
    by reflexivity.
  assert (Hst : ReentrancyGuard._NOT_ENTERED ≠ ReentrancyGuard._ENTERED)
    by discriminate.
  assert (Hbody : body (ReentrancyGuard.set_status ReentrancyGuard._ENTERED s)
                  = (s_b, Raise (Exception "boom"))) by reflexivity.
  assert (Hlatched : ReentrancyGuard._status s_b = Some ReentrancyGuard._ENTERED)
    by reflexivity.
  destruct (method_guard_stays_latched body s s_b _ _ Hs Hst Hbody Hlatched)
    as (Hrun & Hstay & _ & _ & Hdec).
  repeat split; assumption.
Defined.

(** * Further properties of the ledgers and mixins *)

(** ** Token: what each method does and when it fails *)

Section TokenMethods.
Import Token.

(** X1: [transfer] returns exactly when the recipient is not the zero
    address, the amount is positive and the sender holds at least the
    amount.  It then moves the amount (a transfer to oneself changes no
    balance), leaves the supply and the allowances alone and emits one
    [Transfer] event; when it raises it has written nothing. *)
Theorem token_transfer_spec sender to amount s :
  let r := transfer sender to amount s in
  (r.2 = Ok true ↔ to ≠ ZERO_ADDRESS ∧ 0 < amount ∧ amount ≤ balance_of s sender)
  ∧ (r.2 = Ok true →
       total_supply r.1 = total_supply s
       ∧ allowances r.1 = allowances s
       ∧ log r.1 = (log s ++ [("Transfer", [Addr sender; Addr to; Int amount])])%list
       ∧ ∀ x, balance_of r.1 x
              = balance_of s x - amount * indicator (x = sender)
                + amount * indicator (x = to))
  ∧ (r.2 ≠ Ok true → r.1 = s).
Proof.
  unfold transfer, balance_of. step_M.
  - repeat split; try done. intros (? & _); done.
  - repeat split; try done. intros (_ & ? & _); lia.
  - repeat split; try done. intros (_ & _ & ?); lia.
  - repeat split; try done; try lia.
    intros x. rewrite !get0_insert. unfold indicator.
    repeat case_decide; subst; try done; lia.
Qed.

(** X2: [approve] fails only for the zero address as spender.  Otherwise it
    overwrites the one allowance it names with the given amount, whatever
    was there and whatever the sign of the amount, and changes no other
    allowance, no balance and not the supply. *)
Theorem token_approve_spec sender spender amount s :
  let r := approve sender spender amount s in
  (r.2 = Ok true ↔ spender ≠ ZERO_ADDRESS)
  ∧ (r.2 = Ok true →
       allowance r.1 sender spender = amount
       ∧ (∀ o sp, (o, sp) ≠ (sender, spender) →
            allowance r.1 o sp = allowance s o sp)
       ∧ balances r.1 = balances s
       ∧ total_supply r.1 = total_supply s
       ∧ log r.1
         = (log s ++ [("Approval", [Addr sender; Addr spender; Int amount])])%list)
  ∧ (r.2 ≠ Ok true → r.1 = s).
Proof.
  unfold approve, store_allowance, allowance. step_M.
  - repeat split; try done.
  - destruct (allowances s !! sender) as [d|] eqn:Hd; simpl;
      rewrite ?Hd, ?lookup_insert_eq; simpl.
    + repeat split; try done.
      * by rewrite lookup_insert_eq, get0_insert_eq.
      * intros o sp Hne. rewrite lookup_insert. case_decide; subst.
        -- rewrite Hd. apply get0_insert_ne. congruence.
        -- done.
    + repeat split; try done.
      * by rewrite lookup_insert_eq, get0_insert_eq.
      * intros o sp Hne. rewrite insert_insert_eq, lookup_insert.
        case_decide; subst.
        -- rewrite Hd. rewrite get0_insert_ne by congruence. done.
        -- done.
Qed.

(** X3: [_mint] returns exactly when the account is not the zero address
    and the amount is positive; it then raises the supply and the balance
    of the account by the amount, touches no other balance and no
    allowance, and emits one [Transfer] event from the zero address. *)
Theorem token__mint_spec account amount s :
  let r := _mint account amount s in
  (r.2 = Ok tt ↔ account ≠ ZERO_ADDRESS ∧ 0 < amount)
  ∧ (r.2 = Ok tt →
       total_supply r.1 = total_supply s + amount
       ∧ balance_of r.1 account = balance_of s account + amount
       ∧ (∀ x, x ≠ account → balance_of r.1 x = balance_of s x)
       ∧ allowances r.1 = allowances s
       ∧ log r.1
         = (log s ++ [("Transfer", [Addr ZERO_ADDRESS; Addr account; Int amount])])%list)
  ∧ (r.2 ≠ Ok tt → r.1 = s).
Proof.
  unfold _mint, balance_of. step_M.
  - repeat split; try done. intros (? & _); done.
  - repeat split; try done. intros (_ & ?); lia.
  - repeat split; try done; try lia.
    + apply get0_insert_eq.
    + intros x Hx. by apply get0_insert_ne.
Qed.

(** X4: [_burn] returns exactly when the amount does not exceed the balance
    of the account; there is no test on the sign of the amount or on the
    account.  It then lowers the balance and the supply by the amount, so a
    negative amount raises both. *)
Theorem token__burn_spec account amount s :
  let r := _burn account amount s in
  (r.2 = Ok tt ↔ amount ≤ balance_of s account)
  ∧ (r.2 = Ok tt →
       total_supply r.1 = total_supply s - amount
       ∧ balance_of r.1 account = balance_of s account - amount
       ∧ (∀ x, x ≠ account → balance_of r.1 x = balance_of s x)
       ∧ allowances r.1 = allowances s
       ∧ log r.1
         = (log s ++ [("Transfer", [Addr account; Addr ZERO_ADDRESS; Int amount])])%list)
  ∧ (r.2 ≠ Ok tt → r.1 = s).
Proof.
  unfold _burn, balance_of. step_M.
  - repeat split; try done. lia.
  - repeat split; try done; try lia.
    + apply get0_insert_eq.
    + intros x Hx. by apply get0_insert_ne.
Qed.

(** The final states of the calls that return, written out. *)
Lemma _mint_runs account amount s :
  account ≠ ZERO_ADDRESS → 0 < amount →
  _mint account amount s
  = (set_log (log s ++ [("Transfer", [Addr ZERO_ADDRESS; Addr account; Int amount])])
       (set_balances (<[account := get0 (balances s) account + amount]> (balances s))
          (set_total_supply (total_supply s + amount) s)),
     Ok tt).
Proof. intros. unfold _mint. step_M; try done; lia. Qed.

Lemma _burn_runs account amount s :
  amount ≤ get0 (balances s) account →
  _burn account amount s
  = (set_log (log s ++ [("Transfer", [Addr account; Addr ZERO_ADDRESS; Int amount])])
       (set_total_supply (total_supply s - amount)
          (set_balances (<[account := get0 (balances s) account - amount]> (balances s))
             s)),
     Ok tt).
Proof. intros. unfold _burn. step_M; try done; lia. Qed.

Lemma transfer_runs sender to amount s :
  to ≠ ZERO_ADDRESS → 0 < amount → amount ≤ get0 (balances s) sender →
  transfer sender to amount s
  = (set_log (log s ++ [("Transfer", [Addr sender; Addr to; Int amount])])
       (set_balances
          (<[to := get0 (<[sender := get0 (balances s) sender - amount]> (balances s)) to
                   + amount]>
             (<[sender := get0 (balances s) sender - amount]> (balances s)))
          s),
     Ok true).
Proof. intros. unfold transfer. step_M; try done; lia. Qed.

(** X5: on an account other than the zero address whose balance is not
    negative, minting a positive amount and burning it again gives back
    the supply and every balance as read by [balance_of]. *)
Theorem token_mint_then_burn account amount s :
  account ≠ ZERO_ADDRESS → 0 < amount → 0 ≤ balance_of s account →
  ∃ s1 s2,
    _mint account amount s = (s1, Ok tt)
    ∧ _burn account amount s1 = (s2, Ok tt)
    ∧ total_supply s2 = total_supply s
    ∧ (∀ x, balance_of s2 x = balance_of s x)
    ∧ allowances s2 = allowances s.
Proof.
  intros Hacc Hpos Hbal. unfold balance_of in Hbal. do 2 eexists.
  split; [by apply _mint_runs |].
  split; [apply _burn_runs; simpl; rewrite get0_insert_eq; lia |].
  unfold balance_of. simpl. split; [lia |]. split; [| done].
  intros x. rewrite !get0_insert. repeat case_decide; subst; try done; lia.
Qed.

Lemma token_mint_then_burn_run :
  "A" ≠ ZERO_ADDRESS ∧ 0 < 40 ∧ 0 ≤ balance_of (init "X" "X" 18) "A"
  ∧ ∃ s1 s2,
      _mint "A" 40 (init "X" "X" 18) = (s1, Ok tt)
      ∧ _burn "A" 40 s1 = (s2, Ok tt)
      ∧ total_supply s2 = total_supply (init "X" "X" 18)
      ∧ (∀ x, balance_of s2 x = balance_of (init "X" "X" 18) x)
      ∧ allowances s2 = allowances (init "X" "X" 18).
Proof.
  assert (Hacc : "A" ≠ ZERO_ADDRESS) by discriminate.
  assert (Hpos : 0 < 40) by lia.
  assert (Hbal : 0 ≤ balance_of (init "X" "X" 18) "A") by (vm_compute; discriminate).
  split; [exact Hacc |]. split; [exact Hpos |]. split; [exact Hbal |].
  exact (token_mint_then_burn "A" 40 (init "X" "X" 18) Hacc Hpos Hbal).
Defined.

(** X6: the round trip of the specification.  With A and B other than the
    zero address and holding non-negative balances, minting a positive
    amount to A, transferring it from A to B and letting B burn it through
    [Burnable.burn] gives back the supply and every balance. *)
Theorem token_mint_transfer_burn a b amount s :
  a ≠ ZERO_ADDRESS → b ≠ ZERO_ADDRESS → 0 < amount →
  0 ≤ balance_of s a → 0 ≤ balance_of s b →
  ∃ s1 s2 s3,
    Mintable.OnToken.mint a amount s = (s1, Ok tt)
    ∧ transfer a b amount s1 = (s2, Ok true)
    ∧ Burnable.OnToken.burn b amount s2 = (s3, Ok tt)
    ∧ total_supply s3 = total_supply s
    ∧ ∀ x, balance_of s3 x = balance_of s x.
Proof.
  intros Ha Hb Hpos Hba Hbb. unfold balance_of in *. do 3 eexists.
  unfold Mintable.OnToken.mint, Burnable.OnToken.burn.
  split; [by apply _mint_runs |].
  split; [apply transfer_runs; simpl; rewrite ?get0_insert_eq; (done || lia) |].
  split.
  { apply _burn_runs. simpl. rewrite !get0_insert.
    repeat case_decide; subst; try done; lia. }
  simpl. split; [lia |].
  intros x. rewrite !get0_insert. repeat case_decide; subst; try done; lia.
Qed.

Lemma token_mint_transfer_burn_run :
  let s := (_mint "B" 5 (init "X" "X" 18)).1 in
  "A" ≠ ZERO_ADDRESS ∧ "B" ≠ ZERO_ADDRESS ∧ 0 < 100
  ∧ 0 ≤ balance_of s "A" ∧ 0 ≤ balance_of s "B"
  ∧ ∃ s1 s2 s3,
      Mintable.OnToken.mint "A" 100 s = (s1, Ok tt)
      ∧ transfer "A" "B" 100 s1 = (s2, Ok true)
      ∧ Burnable.OnToken.burn "B" 100 s2 = (s3, Ok tt)
      ∧ total_supply s3 = total_supply s
      ∧ ∀ x, balance_of s3 x = balance_of s x.
Proof.
  intros s.
  assert (Ha : "A" ≠ ZERO_ADDRESS) by discriminate.
  assert (Hb : "B" ≠ ZERO_ADDRESS) by discriminate.
  assert (Hpos : 0 < 100) by lia.
  assert (Hba : 0 ≤ balance_of s "A") by (vm_compute; discriminate).
  assert (Hbb : 0 ≤ balance_of s "B") by (vm_compute; discriminate).
  repeat (split; [assumption |]).
  exact (token_mint_transfer_burn "A" "B" 100 s Ha Hb Hpos Hba Hbb).
Defined.

(** X7: [Burnable.burn_from] on a token returns exactly when the allowance
    of the caller on the account covers the amount, the account has an
    allowance dictionary, and the balance covers the amount; it then lowers
    that allowance, the balance of the account and the supply by the
    amount. *)
Theorem token_burn_from_spec sender account amount s :
  let r := Burnable.OnToken.burn_from sender account amount s in
  (r.2 = Ok tt ↔
     amount ≤ allowance s account sender
     ∧ is_Some (allowances s !! account)
     ∧ amount ≤ balance_of s account)
  ∧ (r.2 = Ok tt →
       allowance r.1 account sender = allowance s account sender - amount
       ∧ balance_of r.1 account = balance_of s account - amount
       ∧ total_supply r.1 = total_supply s - amount).
Proof.
  unfold Burnable.OnToken.burn_from, store_allowance, _burn, balance_of.
  step_M.
  - repeat split; try done. lia.
  - destruct (allowances s !! account) as [d|] eqn:Hd; simpl.
    + step_M.
      * repeat split; try done. intros (_ & _ & ?). lia.
      * repeat split; try done; try lia;
          first [ by eexists
                | apply get0_insert_eq
                | unfold allowance at 1; simpl; rewrite lookup_insert_eq;
                  apply get0_insert_eq ].
    + repeat split; try done. intros (_ & [d Hd'] & _). done.
Qed.

End TokenMethods.

(** ** Token: what holds along any run of calls *)

Section TokenRuns.
Import Token.

Lemma approve_nonnegative sender spender amount s :
  nonnegative s → nonnegative (approve sender spender amount s).1.
Proof.
  intros Hs. unfold approve, store_allowance. step_M; try done.
  destruct (allowances s !! sender) eqn:Ha; simpl.
  - by rewrite Ha.
  - by rewrite lookup_insert_eq.
Qed.

(** With an amount that is not negative, the writes of [transfer_from]
    keep every balance at or above zero, also when the call raises after
    them. *)
Lemma transfer_from_nonnegative sender from_addr to amount s :
  0 ≤ amount → nonnegative s →
  nonnegative (transfer_from sender from_addr to amount s).1.
Proof.
  intros Hpos Hs. unfold transfer_from, store_allowance. step_M; try done.
  pose proof (get0_nonnegative s to Hs).
  pose proof (get0_nonnegative s from_addr Hs).
  assert (Hw : ∀ x n,
    <[to := get0 (<[from_addr := get0 (balances s) from_addr - amount]> (balances s)) to
            + amount]>
      (<[from_addr := get0 (balances s) from_addr - amount]> (balances s)) !! x = Some n
    → 0 ≤ n).
  { intros x n. rewrite get0_insert, !lookup_insert.
    repeat case_decide; subst; intros Hx; simplify_eq; try lia.
    by apply (Hs x). }
  destruct (allowances s !! from_addr); simpl; exact Hw.
Qed.

Lemma exec_nonnegative c s :
  no_negative_transfer_from c → nonnegative s → nonnegative (exec c s).1.
Proof.
  intros Hc Hs. destruct c; simpl in *.
  - pose proof (transfer_nonnegative sender to amount s Hs) as Hp.
    unfold void, bind, ret. by destruct (transfer _ _ _ _) as [? []].
  - pose proof (approve_nonnegative sender spender amount s Hs) as Hp.
    unfold void, bind, ret. by destruct (approve _ _ _ _) as [? []].
  - pose proof (transfer_from_nonnegative sender from_addr to amount s Hc Hs) as Hp.
    unfold void, bind, ret. by destruct (transfer_from _ _ _ _ _) as [? []].
  - by apply _mint_nonnegative.
  - by apply _burn_nonnegative.
Qed.

Lemma sum_values_nonnegative (d : gmap string Z) :
  (∀ x n, d !! x = Some n → 0 ≤ n) → 0 ≤ sum_values d.
Proof.
  induction d as [| k v d Hk IH] using map_ind; intros Hd.
  - unfold sum_values. by rewrite map_fold_empty.
  - rewrite sum_values_insert_fresh by done.
    assert (0 ≤ v) by (apply (Hd k); apply lookup_insert_eq).
    assert (0 ≤ sum_values d); [| lia].
    apply IH. intros x n Hx. apply (Hd x).
    rewrite lookup_insert_ne; [done |]. intros ->. congruence.
Qed.

(** X8: starting from a fresh token, along any run of calls (returning or
    raising) in which no [transfer_from] is given a negative amount, no
    balance is negative, the supply is not negative, and the balances add
    up to the supply. *)
Theorem token_run_nonnegative n sy d cs :
  Forall no_negative_transfer_from cs →
  let s := token_run cs (init n sy d) in
  (∀ x, 0 ≤ balance_of s x)
  ∧ 0 ≤ total_supply s
  ∧ sum_values (balances s) = total_supply s.
Proof.
  intros Hcs.
  assert (Hinv : ∀ s0, nonnegative s0 → supply_invariant s0 →
            nonnegative (token_run cs s0) ∧ supply_invariant (token_run cs s0)).
  { induction Hcs as [| c cs Hc _ IH]; intros s0 Hn Hsup; simpl; [done |].
    apply IH; [by apply exec_nonnegative | by apply exec_supply]. }
  destruct (Hinv (init n sy d) (init_nonnegative n sy d) (init_supply n sy d))
    as [Hn Hsup].
  simpl. split; [| split].
  - intros x. by apply get0_nonnegative.
  - rewrite <- Hsup. by apply sum_values_nonnegative.
  - exact Hsup.
Qed.

Lemma token_run_nonnegative_run :
  let cs := [Mint "A" 1000; Approve "A" "B" 50; TransferFrom "B" "A" "C" 50;
             TransferFrom "B" "A" "C" 0; Burn "C" 20; Transfer "A" "" 2000] in
  Forall no_negative_transfer_from cs
  ∧ 0 ≤ total_supply (token_run cs (init "X" "X" 18)).
Proof.
  intros cs.
  assert (Hcs : Forall no_negative_transfer_from cs)
    by (repeat constructor; simpl; lia).
  split; [exact Hcs |].
  exact (proj1 (proj2 (token_run_nonnegative "X" "X" 18 cs Hcs))).
Defined.

(** X9: every call of the fungible ledger that returns has appended exactly
    one event to the log, and every call that raises has appended none,
    including a [transfer_from] that raises after writing balances. *)
Theorem token_exec_events c s :
  ((exec c s).2 = Ok tt → ∃ ev, log (exec c s).1 = (log s ++ [ev])%list)
  ∧ (∀ e, (exec c s).2 = Raise e → log (exec c s).1 = log s).
Proof.
  destruct c; simpl.
  - unfold transfer. step_M; split; try done; eauto.
  - unfold approve, store_allowance. step_M; [split; done |].
    destruct (allowances s !! sender) eqn:Ha; simpl;
      rewrite ?Ha, ?lookup_insert_eq; simpl; split; try done; eauto.
  - unfold transfer_from, store_allowance. step_M; try (split; done).
    destruct (allowances s !! from_addr); simpl; split; try done; eauto.
  - unfold _mint. step_M; split; try done; eauto.
  - unfold _burn. step_M; split; try done; eauto.
Qed.

End TokenRuns.

(** ** NFT: authorisation, approvals and failure *)

Section NFTMethods.
Import NFT.

(** The authorisation check says yes exactly for the owner, the approved
    address and the operators of a token whose owner is recorded and not
    the empty string. *)
Lemma _is_approved_or_owner_true_iff spender token_id s :
  _is_approved_or_owner spender token_id s = (s, Ok true)
  ↔ ∃ o, owners s !! token_id = Some o ∧ o ≠ ""
         ∧ (spender = o
            ∨ default "" (token_approvals s !! token_id) = spender
            ∨ is_approved_for_all s o spender = true).
Proof.
  split.
  - intros Hrun.
    destruct (_is_approved_or_owner_reads spender token_id s) as (b & Hb & Himp).
    rewrite Hrun in Hb. apply Himp. congruence.
  - intros (o & Ho & Hne & Hauth).
    unfold _is_approved_or_owner, get_approved. run_M. rewrite Ho. simpl.
    rewrite bool_decide_eq_true_2 by done.
    step_M; try done; rewrite Ho; simpl; step_M; try done.
    destruct Hauth as [? | [? | ->]]; done.
Qed.

(** In a state with consistent counts the balance of a recorded owner has
    an entry, so the decrement of [transfer_from] and [_burn] finds it. *)
Lemma owner_has_count s token_id o :
  count_invariant s → owners s !! token_id = Some o →
  ∃ n, balances s !! o = Some n.
Proof.
  intros [_ Hcnt] Ho.
  destruct (get0_positive (balances s) o) as (n & Hn & _); [| eauto].
  rewrite Hcnt. by eapply owned_by_positive.
Qed.

(** X10: in a state with consistent counts, a call of the collection that
    raises has written nothing: [transfer_from] and [_burn] find the count
    they decrement, so they cannot stop between their writes. *)
Theorem nft_exec_atomic c s e :
  count_invariant s → (exec c s).2 = Raise e → (exec c s).1 = s.
Proof.
  intros Hinv. destruct (exec c s) as [s' r] eqn:Hrun. simpl. intros ->.
  revert Hrun. destruct c; simpl.
  - unfold _mint, increment_balance. step_M; try by intros [= <-].
    destruct (owners s !! token_id); simpl; by intros [= <-].
  - unfold _burn, clear_approval, decrement_balance. run_M.
    destruct (owners s !! token_id) as [o|] eqn:Ho; simpl; [| by intros [= <-]].
    case_bool_decide; simpl; [| by intros [= <-]].
    destruct (owner_has_count s token_id o Hinv Ho) as [n Hn].
    destruct (token_approvals s !! token_id); simpl; rewrite Hn; simpl;
      unfold event; run_M; intros Hbad; discriminate Hbad.
  - unfold transfer_from, bind at 1.
    destruct (_is_approved_or_owner_reads sender token_id s) as (b & -> & _).
    destruct b; simpl; [| run_M; by intros [= <-]].
    unfold clear_approval, decrement_balance, increment_balance.
    step_M; try by intros [= <-].
    assert (Ho : owners s !! token_id = Some from_addr).
    { destruct (decide (owners s !! token_id = Some from_addr)); [done | contradiction]. }
    destruct (owner_has_count s token_id from_addr Hinv Ho) as [n Hn].
    destruct (token_approvals s !! token_id); simpl; rewrite Hn; simpl;
      unfold event; run_M; intros Hbad; discriminate Hbad.
  - unfold approve, bind at 1.
    destruct (owner_of_reads token_id s) as [(o & -> & _) | (e' & ->)];
      [| by intros [= <-]].
    step_M; try by intros [= <-].
    destruct (is_approved_for_all s o sender); simpl;
      unfold event; run_M; by intros [= <-].
  - unfold set_approval_for_all. step_M; unfold event; run_M; by intros [= <-].
Qed.

Lemma nft_exec_atomic_run :
  let s := (_mint "A" 1 (init "N" "N")).1 in
  let e := Exception "NFT: transfer caller is not owner nor approved" in
  count_invariant s
  ∧ (exec (TransferFrom "B" "A" "C" 1) s).2 = Raise e
  ∧ (exec (TransferFrom "B" "A" "C" 1) s).1 = s.
Proof.
  intros s e.
  assert (Hinv : count_invariant s).
  { apply reachable_count.
    apply (reachable_step (Mint "A" 1) (init "N" "N") s);
      [apply reachable_init | vm_compute; reflexivity]. }
  assert (Hr : (exec (TransferFrom "B" "A" "C" 1) s).2 = Raise e)
    by (vm_compute; reflexivity).
  split; [exact Hinv |]. split; [exact Hr |].
  exact (nft_exec_atomic (TransferFrom "B" "A" "C" 1) s e Hinv Hr).
Defined.

(** X11: in a state with consistent counts, [transfer_from] returns exactly
    when the token is recorded for [from], who is not the empty string, the
    recipient is not the zero address, and the caller is that owner, the
    approved address of the token, or an operator of the owner. *)
Theorem nft_transfer_from_returns_iff sender from_addr to token_id s :
  count_invariant s →
  (transfer_from sender from_addr to token_id s).2 = Ok tt
  ↔ owners s !! token_id = Some from_addr ∧ from_addr ≠ ""
    ∧ to ≠ ZERO_ADDRESS
    ∧ (sender = from_addr
       ∨ default "" (token_approvals s !! token_id) = sender
       ∨ is_approved_for_all s from_addr sender = true).
Proof.
  intros Hinv. split.
  - unfold transfer_from, bind at 1.
    destruct (_is_approved_or_owner_reads sender token_id s) as (b & -> & Hb).
    destruct b; simpl; [| done].
    destruct Hb as (o & Ho & Hne & Hauth); [done |].
    step_M; try done. intros _.
    assert (Hfrom : owners s !! token_id = Some from_addr).
    { destruct (decide (owners s !! token_id = Some from_addr)); [done | contradiction]. }
    assert (o = from_addr) as -> by congruence. done.
  - intros (Ho & Hne & Hto & Hauth).
    assert (Hyes : _is_approved_or_owner sender token_id s = (s, Ok true)).
    { apply _is_approved_or_owner_true_iff. exists from_addr. done. }
    destruct (owner_has_count s token_id from_addr Hinv Ho) as [n Hn].
    unfold transfer_from, bind at 1. rewrite Hyes. simpl.
    unfold clear_approval, decrement_balance, increment_balance.
    step_M; try done.
    destruct (token_approvals s !! token_id); simpl; rewrite Hn; simpl;
      unfold event; run_M; done.
Qed.

Lemma nft_transfer_from_returns_iff_run :
  let s := (approve "A" "B" 1 (_mint "A" 1 (init "N" "N")).1).1 in
  count_invariant s
  ∧ (transfer_from "B" "A" "C" 1 s).2 = Ok tt.
Proof.
  intros s.
  assert (Hinv : count_invariant s).
  { apply reachable_count.
    apply (reachable_step (Approve "A" "B" 1) (_mint "A" 1 (init "N" "N")).1 s);
      [| vm_compute; reflexivity].
    apply (reachable_step (Mint "A" 1) (init "N" "N") _);
      [apply reachable_init | vm_compute; reflexivity]. }
  split; [exact Hinv |].
  apply (nft_transfer_from_returns_iff "B" "A" "C" 1 s Hinv).
  repeat split; try done. right. left. vm_compute. reflexivity.
Defined.

(** Every call keeps the approvals consistent, whether it returns or
    raises. *)
Lemma exec_approvals c s :
  approvals_invariant s → approvals_invariant (exec c s).1.
Proof.
  intros Hinv. destruct c; simpl.
  - unfold _mint, increment_balance. step_M; try done.
    destruct (owners s !! token_id) as [o|] eqn:Ho; simpl; [done |].
    intros t a Ha. simpl in *. destruct (Hinv t a Ha) as (o & Hto & Hne).
    exists o. split; [| done]. rewrite lookup_insert_ne; [done |].
    intros ->. congruence.
  - unfold _burn, clear_approval, decrement_balance. run_M.
    destruct (owners s !! token_id) as [o|] eqn:Ho; simpl; [| done].
    case_bool_decide; simpl; [| done].
    destruct (token_approvals s !! token_id) eqn:Hap; simpl;
      (destruct (balances s !! o); simpl;
       intros t a; simpl; rewrite ?lookup_delete; repeat case_decide;
       subst; try done; intros Ha; try (by apply Hinv); congruence).
  - unfold transfer_from, bind at 1.
    destruct (_is_approved_or_owner_reads sender token_id s) as (b & -> & _).
    destruct b; simpl; [| done].
    unfold clear_approval, decrement_balance, increment_balance.
    step_M; try done.
    destruct (token_approvals s !! token_id) eqn:Hap; simpl;
      (destruct (balances s !! from_addr); simpl;
       intros t a; simpl; rewrite ?lookup_delete, ?lookup_insert;
       repeat case_decide; subst; try done; intros Ha;
       try (by apply Hinv); congruence).
  - unfold approve, bind at 1.
    destruct (owner_of_reads token_id s) as [(o & -> & Ho & _) | (e' & ->)]; [| done].
    step_M; try done;
      destruct (is_approved_for_all s o sender); simpl; try done;
      (intros t a; simpl; rewrite lookup_insert; case_decide; subst;
       [ intros [= <-]; exists o; split; [done | congruence] | apply Hinv ]).
  - unfold set_approval_for_all. step_M; done.
Qed.

(** X12: in every state reached from a fresh collection by calls that
    returned, a token with an approved address has a recorded owner, and
    the approved address is not that owner. *)
Theorem reachable_approvals s :
  reachable s →
  ∀ token_id a, token_approvals s !! token_id = Some a →
    ∃ o, owners s !! token_id = Some o ∧ o ≠ a.
Proof.
  induction 1 as [n sy | c s s' _ IH Hexec].
  - intros t a. simpl. by rewrite lookup_empty.
  - pose proof (exec_approvals c s IH) as Hp. by rewrite Hexec in Hp.
Qed.

Lemma reachable_approvals_run :
  let s1 := (exec (Mint "A" 1) (init "N" "N")).1 in
  let s2 := (exec (Approve "A" "B" 1) s1).1 in
  reachable s2
  ∧ ∀ token_id a, token_approvals s2 !! token_id = Some a →
      ∃ o, owners s2 !! token_id = Some o ∧ o ≠ a.
Proof.
  intros s1 s2.
  assert (Hr : reachable s2).
  { apply (reachable_step (Approve "A" "B" 1) s1 s2); [| vm_compute; reflexivity].
    apply (reachable_step (Mint "A" 1) (init "N" "N") s1);
      [apply reachable_init | vm_compute; reflexivity]. }
  split; [exact Hr | exact (reachable_approvals s2 Hr)].
Defined.

(** X13: [approve] returns exactly when the token has a recorded owner that
    is not the empty string, the approved address is not that owner, and
    the caller is the owner or one of its operators.  It then fills the
    approval slot, which [get_approved] reads back, and changes neither
    owners, counts nor operators; when it raises it has written nothing. *)
Theorem nft_approve_spec sender to token_id s :
  let r := approve sender to token_id s in
  (r.2 = Ok tt ↔
     ∃ o, owners s !! token_id = Some o ∧ o ≠ "" ∧ to ≠ o
          ∧ (sender = o ∨ is_approved_for_all s o sender = true))
  ∧ (r.2 = Ok tt →
       get_approved token_id r.1 = (r.1, Ok to)
       ∧ owners r.1 = owners s ∧ balances r.1 = balances s
       ∧ operator_approvals r.1 = operator_approvals s
       ∧ ∀ t, t ≠ token_id → token_approvals r.1 !! t = token_approvals s !! t)
  ∧ (r.2 ≠ Ok tt → r.1 = s).
Proof.
  unfold approve, owner_of, get_approved. run_M.
  destruct (owners s !! token_id) as [o|] eqn:Ho; simpl.
  - case_bool_decide; simpl.
    + step_M.
      * repeat split; try done. intros (o' & [= <-] & _ & ? & _). done.
      * repeat split; try done.
        -- intros _. exists o. auto.
        -- by rewrite Ho, lookup_insert_eq.
        -- intros t Ht. by rewrite lookup_insert_ne.
      * destruct (is_approved_for_all s o sender) eqn:Hop; simpl.
        -- repeat split; try done.
           ++ intros _. exists o. auto.
           ++ by rewrite Ho, lookup_insert_eq.
           ++ intros t Ht. by rewrite lookup_insert_ne.
        -- repeat split; try done.
           intros (o' & [= <-] & _ & _ & [? | ?]); congruence.
    + repeat split; try done. intros (o' & [= <-] & ? & _). done.
  - repeat split; try done. intros (o' & ? & _). done.
Qed.

(** X14: [set_approval_for_all] fails only when the operator is the caller.
    Otherwise [is_approved_for_all] of the caller and that operator reads
    back the flag, every other pair reads as before, and owners, counts
    and token approvals are untouched. *)
Theorem nft_set_approval_for_all_spec sender operator approved s :
  let r := set_approval_for_all sender operator approved s in
  (r.2 = Ok tt ↔ operator ≠ sender)
  ∧ (r.2 = Ok tt →
       is_approved_for_all r.1 sender operator = approved
       ∧ (∀ o op, (o, op) ≠ (sender, operator) →
            is_approved_for_all r.1 o op = is_approved_for_all s o op)
       ∧ owners r.1 = owners s ∧ balances r.1 = balances s
       ∧ token_approvals r.1 = token_approvals s)
  ∧ (r.2 ≠ Ok tt → r.1 = s).
Proof.
  unfold set_approval_for_all, is_approved_for_all. step_M.
  - repeat split; try done.
  - repeat split; try done.
    + by rewrite lookup_insert_eq, lookup_insert_eq.
    + intros o op Hne. rewrite lookup_insert. case_decide; subst.
      * rewrite lookup_insert_ne by congruence.
        by destruct (operator_approvals s !! o).
      * done.
Qed.

(** The final states of [_mint] and [_burn] when they return, written
    out. *)
Lemma nft__mint_runs to token_id s :
  to ≠ ZERO_ADDRESS → owners s !! token_id = None →
  _mint to token_id s
  = (set_log (log s ++ [("Transfer", [Addr ZERO_ADDRESS; Addr to; Int token_id])])
       (set_owners (<[token_id := to]> (owners s))
          (set_balances (<[to := get0 (balances s) to + 1]> (balances s)) s)),
     Ok tt).
Proof.
  intros Hto Hnone. unfold _mint, increment_balance. step_M; try done.
  by rewrite Hnone.
Qed.

Lemma nft__burn_runs token_id o n s :
  owners s !! token_id = Some o → o ≠ "" → balances s !! o = Some n →
  _burn token_id s
  = (set_log (log s ++ [("Transfer", [Addr o; Addr ZERO_ADDRESS; Int token_id])])
       (set_owners (delete token_id (owners s))
          (set_balances (<[o := n - 1]> (balances s))
             (set_token_approvals (delete token_id (token_approvals s)) s))),
     Ok tt).
Proof.
  intros Ho Hne Hn. unfold _burn, clear_approval, decrement_balance. run_M.
  rewrite Ho. simpl. rewrite bool_decide_eq_true_2 by done.
  destruct (token_approvals s !! token_id) eqn:Hap; simpl; rewrite Hn; simpl.
  - done.
  - unfold event. run_M. by rewrite (delete_id _ _ Hap).
Qed.

(** X15: the empty string passes the zero-address test of [_mint] but is
    false as a Python value.  A token minted to it is counted, and from
    then on [owner_of], [_burn], [approve], any [transfer_from] and any
    further [_mint] of that id raise and write nothing. *)
Theorem nft_mint_to_empty_string token_id s :
  owners s !! token_id = None →
  ∃ s1,
    _mint "" token_id s = (s1, Ok tt)
    ∧ get0 (balances s1) "" = get0 (balances s) "" + 1
    ∧ owner_of token_id s1
      = (s1, Raise (Exception "NFT: owner query for nonexistent token"))
    ∧ _burn token_id s1 = (s1, Raise (Exception "NFT: burn of nonexistent token"))
    ∧ (∀ sender to,
         approve sender to token_id s1
         = (s1, Raise (Exception "NFT: owner query for nonexistent token")))
    ∧ (∀ sender from_addr to,
         transfer_from sender from_addr to token_id s1 = (s1, Raise NotAuthorized))
    ∧ (∀ to, to ≠ ZERO_ADDRESS →
         _mint to token_id s1 = (s1, Raise (Exception "NFT: token already minted"))).
Proof.
  intros Hnone. eexists. split; [by apply nft__mint_runs |].
  split; [simpl; apply get0_insert_eq |].
  assert (Ho : ∀ l b, owners
     (set_log l (set_owners (<[token_id := ""]> (owners s)) (set_balances b s)))
     !! token_id = Some "").
  { intros. simpl. apply lookup_insert_eq. }
  repeat split.
  - unfold owner_of. run_M. by rewrite lookup_insert_eq.
  - unfold _burn. run_M. by rewrite lookup_insert_eq.
  - intros sender to. unfold approve, owner_of. run_M.
    by rewrite lookup_insert_eq.
  - intros sender from_addr to.
    unfold transfer_from, _is_approved_or_owner. run_M.
    by rewrite lookup_insert_eq.
  - intros to Hto. unfold _mint. step_M; try done.
    by rewrite lookup_insert_eq.
Qed.

Lemma nft_mint_to_empty_string_run :
  owners (init "N" "N") !! 3 = None
  ∧ ∃ s1, _mint "" 3 (init "N" "N") = (s1, Ok tt)
          ∧ _burn 3 s1 = (s1, Raise (Exception "NFT: burn of nonexistent token")).
Proof.
  assert (Hnone : owners (init "N" "N") !! 3 = None) by reflexivity.
  split; [exact Hnone |].
  destruct (nft_mint_to_empty_string 3 (init "N" "N") Hnone)
    as (s1 & Hm & _ & _ & Hb & _).
  exists s1. split; [exact Hm | exact Hb].
Defined.

(** X16: minting a fresh token id to an address that is neither the zero
    address nor the empty string and burning it again gives back the
    owners, every count and the operators; the token has no approval and no
    owner afterwards. *)
Theorem nft_mint_then_burn to token_id s :
  to ≠ ZERO_ADDRESS → to ≠ "" → owners s !! token_id = None →
  ∃ s1 s2,
    _mint to token_id s = (s1, Ok tt)
    ∧ owner_of token_id s1 = (s1, Ok to)
    ∧ _burn token_id s1 = (s2, Ok tt)
    ∧ owners s2 = owners s
    ∧ (∀ x, get0 (balances s2) x = get0 (balances s) x)
    ∧ operator_approvals s2 = operator_approvals s
    ∧ token_approvals s2 !! token_id = None
    ∧ owner_of token_id s2
      = (s2, Raise (Exception "NFT: owner query for nonexistent token")).
Proof.
  intros Hto Hne Hnone. do 2 eexists.
  split; [by apply nft__mint_runs |].
  split.
  { unfold owner_of. run_M. rewrite lookup_insert_eq. simpl.
    by rewrite bool_decide_eq_true_2. }
  split.
  { apply (nft__burn_runs token_id to (get0 (balances s) to + 1)); simpl;
      [apply lookup_insert_eq | done | apply lookup_insert_eq]. }
  simpl. repeat split.
  - rewrite delete_insert_eq. by apply delete_id.
  - intros x. rewrite !get0_insert. repeat case_decide; subst; try done; lia.
  - apply lookup_delete_eq.
  - unfold owner_of. run_M. rewrite delete_insert_eq, delete_id by done.
    by rewrite Hnone.
Qed.

Lemma nft_mint_then_burn_run :
  "A" ≠ ZERO_ADDRESS ∧ "A" ≠ "" ∧ owners (init "N" "N") !! 9 = None
  ∧ ∃ s1 s2, _mint "A" 9 (init "N" "N") = (s1, Ok tt)
             ∧ _burn 9 s1 = (s2, Ok tt)
             ∧ owners s2 = owners (init "N" "N").
Proof.
  assert (Hto : "A" ≠ ZERO_ADDRESS) by discriminate.
  assert (Hne : "A" ≠ "") by discriminate.
  assert (Hnone : owners (init "N" "N") !! 9 = None) by reflexivity.
  repeat (split; [assumption |]).
  destruct (nft_mint_then_burn "A" 9 (init "N" "N") Hto Hne Hnone)
    as (s1 & s2 & Hm & _ & Hb & Ho & _).
  exists s1, s2. repeat split; assumption.
Defined.

(** X17: in a state with consistent counts, [Burnable.burn] on a collection
    returns exactly when the caller is the recorded owner of the token (and
    not the empty string); the token then has no owner and no approval and
    the count of the caller is one lower. *)
Theorem nft_burn_owner_only sender token_id s :
  count_invariant s →
  let r := Burnable.OnNFT.burn sender token_id s in
  (r.2 = Ok tt ↔ owners s !! token_id = Some sender ∧ sender ≠ "")
  ∧ (r.2 = Ok tt →
       owners r.1 = delete token_id (owners s)
       ∧ token_approvals r.1 !! token_id = None
       ∧ get0 (balances r.1) sender = get0 (balances s) sender - 1).
Proof.
  intros Hinv r. subst r.
  destruct (owner_of_reads token_id s) as [(o & Hown & Ho & Hne) | (e & Hraise)].
  - destruct (decide (o = sender)) as [-> | Hother].
    + destruct (owner_has_count s token_id sender Hinv Ho) as [n Hn].
      assert (Hrun : Burnable.OnNFT.burn sender token_id s
                     = _burn token_id s).
      { unfold Burnable.OnNFT.burn, bind. rewrite Hown. by case_decide. }
      rewrite Hrun, (nft__burn_runs token_id sender n s Ho Hne Hn). simpl.
      repeat split; try done.
      * apply lookup_delete_eq.
      * rewrite get0_insert_eq. by rewrite (get0_Some _ _ _ Hn).
    + assert (Hrun : Burnable.OnNFT.burn sender token_id s
                     = (s, Raise (Exception "Burnable: caller is not token owner"))).
      { unfold Burnable.OnNFT.burn, bind. rewrite Hown. by case_decide. }
      rewrite Hrun. simpl. split; [| done]. split; [done |].
      intros [? _]. congruence.
  - assert (Hrun : Burnable.OnNFT.burn sender token_id s = (s, Raise e)).
    { unfold Burnable.OnNFT.burn, bind. by rewrite Hraise. }
    rewrite Hrun. simpl. split; [| done]. split; [done |].
    intros [Ho Hne]. revert Hraise. unfold owner_of. run_M. rewrite Ho. simpl.
    by rewrite bool_decide_eq_true_2.
Qed.

Lemma nft_burn_owner_only_run :
  let s := (_mint "A" 1 (init "N" "N")).1 in
  count_invariant s
  ∧ (Burnable.OnNFT.burn "A" 1 s).2 = Ok tt
  ∧ (Burnable.OnNFT.burn "B" 1 s).2 ≠ Ok tt.
Proof.
  intros s.
  assert (Hinv : count_invariant s).
  { apply reachable_count.
    apply (reachable_step (Mint "A" 1) (init "N" "N") s);
      [apply reachable_init | vm_compute; reflexivity]. }
  split; [exact Hinv |].
  destruct (nft_burn_owner_only "A" 1 s Hinv) as [Ha _].
  destruct (nft_burn_owner_only "B" 1 s Hinv) as [Hb _].
  split.
  - apply Ha. split; [vm_compute; reflexivity | discriminate].
  - intros Hok. apply Hb in Hok. destruct Hok as [Hok _].
    vm_compute in Hok. discriminate Hok.
Defined.

(** X18: in a state with consistent counts, [Burnable.burn_from] on a
    collection returns exactly when the caller is the owner of the token,
    its approved address or an operator of the owner; the [account]
    argument plays no part.  The token then has no owner. *)
Theorem nft_burn_from_authorised sender account token_id s :
  count_invariant s →
  let r := Burnable.OnNFT.burn_from sender account token_id s in
  (r.2 = Ok tt ↔
     ∃ o, owners s !! token_id = Some o ∧ o ≠ ""
          ∧ (sender = o
             ∨ default "" (token_approvals s !! token_id) = sender
             ∨ is_approved_for_all s o sender = true))
  ∧ (r.2 = Ok tt → owners r.1 = delete token_id (owners s)).
Proof.
  intros Hinv r. subst r.
  destruct (_is_approved_or_owner_reads sender token_id s) as (b & Hchk & Hb).
  destruct b.
  - destruct Hb as (o & Ho & Hne & Hauth); [done |].
    destruct (owner_has_count s token_id o Hinv Ho) as [n Hn].
    assert (Hrun : Burnable.OnNFT.burn_from sender account token_id s
                   = _burn token_id s).
    { unfold Burnable.OnNFT.burn_from, bind. by rewrite Hchk. }
    rewrite Hrun, (nft__burn_runs token_id o n s Ho Hne Hn). simpl.
    split; [| done]. split; [| done]. intros _. by exists o.
  - assert (Hrun : Burnable.OnNFT.burn_from sender account token_id s
                   = (s, Raise (Exception "Burnable: caller is not owner nor approved"))).
    { unfold Burnable.OnNFT.burn_from, bind. by rewrite Hchk. }
    rewrite Hrun. simpl. split; [| done]. split; [done |]. intros Hauth.
    apply _is_approved_or_owner_true_iff in Hauth. congruence.
Qed.

Lemma nft_burn_from_authorised_run :
  let s := (approve "A" "B" 1 (_mint "A" 1 (init "N" "N")).1).1 in
  count_invariant s
  ∧ (Burnable.OnNFT.burn_from "B" "Z" 1 s).2 = Ok tt.
Proof.
  intros s.
  assert (Hinv : count_invariant s).
  { apply reachable_count.
    apply (reachable_step (Approve "A" "B" 1) (_mint "A" 1 (init "N" "N")).1 s);
      [| vm_compute; reflexivity].
    apply (reachable_step (Mint "A" 1) (init "N" "N") _);
      [apply reachable_init | vm_compute; reflexivity]. }
  split; [exact Hinv |].
  apply (nft_burn_from_authorised "B" "Z" 1 s Hinv).
  exists "A". repeat split; try done. right. left. vm_compute. reflexivity.
Defined.

End NFTMethods.

(** ** Ownable: who passes the gate *)

Section OwnableMethods.
Context {D : Type}.
Import Ownable.

(** X19: [transfer_ownership] returns exactly when the caller is the owner
    and the new owner is not the zero address.  The new owner is then
    recorded, the rest of the contract is untouched, one event is emitted,
    and [only_owner] passes for the new owner and for nobody else; when it
    raises it has written nothing. *)
Theorem ownable_transfer_ownership_spec sender new_owner (s : state D) :
  let r := transfer_ownership sender new_owner s in
  (r.2 = Ok tt ↔ sender = owner s ∧ new_owner ≠ ZERO_ADDRESS)
  ∧ (r.2 = Ok tt →
       owner r.1 = new_owner ∧ rest r.1 = rest s
       ∧ log r.1
         = (log s ++ [("OwnershipTransferred", [Addr (owner s); Addr new_owner])])%list
       ∧ ∀ caller, only_owner caller r.1 = (r.1, Ok tt) ↔ caller = new_owner)
  ∧ (r.2 ≠ Ok tt → r.1 = s).
Proof.
  unfold transfer_ownership, only_owner. step_M.
  - repeat split; try done. intros [? _]. done.
  - repeat split; try done. intros [_ ?]. done.
  - repeat split; try done.
    + case_decide; [done |]. intros _. by destruct (decide (caller0 = new_owner)).
    + intros ->. by case_decide.
Qed.

(** X20: calls made by anyone but the current owner, whether
    [transfer_ownership], [renounce_ownership] or a method gated by
    [only_owner], all fail with the not-the-owner error; the state is not
    written and the protected logic of a gated method does not run. *)
Theorem ownable_strangers_write_nothing (cs : list call) (s : state D) :
  Forall (λ c, caller c ≠ owner s) cs →
  run cs s = (s, (λ _, Raise NotOwner) <$> cs).
Proof.
  induction 1 as [| c cs Hc _ IH]; simpl; [done |].
  assert (Hgate : only_owner (caller c) s = (s, Raise NotOwner))
    by (by apply only_owner_refuses).
  assert (Hexec : exec c s = (s, Raise NotOwner)).
  { destruct c; simpl in *.
    - unfold transfer_ownership, bind at 1. by rewrite Hgate.
    - unfold renounce_ownership, bind at 1. by rewrite Hgate.
    - unfold bind at 1. by rewrite Hgate. }
  by rewrite Hexec, IH.
Qed.

End OwnableMethods.

Lemma ownable_strangers_write_nothing_run :
  let s := Ownable.__init_mixin__ "D" 0 in
  let cs := [Ownable.TransferOwnership "E" "E"; Ownable.RenounceOwnership "F";
             Ownable.Gated "E" (modify (λ s, Ownable.mk "E" [] 1))] in
  Forall (λ c, Ownable.caller c ≠ Ownable.owner s) cs
  ∧ (Ownable.run cs s).1 = s.
Proof.
  intros s cs.
  assert (Hcs : Forall (λ c, Ownable.caller c ≠ Ownable.owner s) cs)
    by (repeat constructor; discriminate).
  split; [exact Hcs |].
  by rewrite (ownable_strangers_write_nothing cs s Hcs).
Defined.

(** ** Pausable: the two states *)

Section PausableMethods.
Context {D : Type}.
Import Pausable.

(** X21: [pause] returns exactly when the contract is not paused; it then
    sets the flag, leaves the rest of the contract alone and emits one
    [Paused] event, after which [when_not_paused] and a second [pause]
    raise the paused error.  A [pause] on a paused contract raises that
    same error and writes nothing. *)
Theorem pausable_pause_spec sender (s : state D) :
  let r := pause sender s in
  (r.2 = Ok tt ↔ paused s = false)
  ∧ (r.2 = Ok tt →
       paused r.1 = true ∧ rest r.1 = rest s
       ∧ log r.1 = (log s ++ [("Paused", [Addr sender])])%list
       ∧ when_not_paused r.1 = (r.1, Raise (Exception "Pausable: paused"))
       ∧ ∀ other, pause other r.1 = (r.1, Raise (Exception "Pausable: paused")))
  ∧ (r.2 ≠ Ok tt → r = (s, Raise (Exception "Pausable: paused"))).
Proof.
  unfold pause, when_not_paused. run_M.
  destruct (paused s) eqn:Hp; simpl; repeat split; try done.
Qed.

(** X22: on a contract that is not paused, [unpause] raises the not-paused
    error; [pause] followed by [unpause] returns, and gives back the flag
    and the rest of the contract, with a [Paused] and an [Unpaused] event
    added to the log in that order. *)
Theorem pausable_pause_then_unpause a b (s : state D) :
  paused s = false →
  unpause b s = (s, Raise (Exception "Pausable: not paused"))
  ∧ ∃ s1 s2,
      pause a s = (s1, Ok tt)
      ∧ unpause b s1 = (s2, Ok tt)
      ∧ paused s2 = false ∧ rest s2 = rest s
      ∧ log s2 = (log s ++ [("Paused", [Addr a]); ("Unpaused", [Addr b])])%list.
Proof.
  intros Hp. unfold pause, unpause, when_paused, when_not_paused. run_M.
  rewrite Hp. simpl. split; [done |].
  do 2 eexists. repeat split. simpl. by rewrite <- app_assoc.
Qed.

End PausableMethods.

Lemma pausable_pause_then_unpause_run :
  let s := Pausable.__init_mixin__ [] 0 in
  Pausable.paused s = false
  ∧ ∃ s1 s2,
      Pausable.pause "A" s = (s1, Ok tt)
      ∧ Pausable.unpause "B" s1 = (s2, Ok tt)
      ∧ Pausable.paused s2 = false.
Proof.
  intros s.
  assert (Hp : Pausable.paused s = false) by reflexivity.
  split; [exact Hp |].
  destruct (pausable_pause_then_unpause "A" "B" s Hp)
    as (_ & s1 & s2 & H1 & H2 & H3 & _).
  exists s1, s2. repeat split; assumption.
Defined.

(** ** ReentrancyGuard: the latch on its own *)

Section ReentrancyMethods.
Context {D : Type}.
Import ReentrancyGuard.

(** X23: the method form of the guard.  From a status that is not
    [_ENTERED], [nonreentrant()] returns and latches; a second
    [nonreentrant()] then raises the reentrant-call error and writes
    nothing, also when the first protected call is long over, until
    [_reset_reentrancy_guard()] is called; after the reset
    [nonreentrant()] returns again.  None of the three touches the rest of
    the contract. *)
Theorem reentrancy_latch_protocol (s : state D) st :
  _status s = Some st → st ≠ _ENTERED →
  ∃ s1 s2,
    nonreentrant s = (s1, Ok tt)
    ∧ _status s1 = Some _ENTERED ∧ rest s1 = rest s
    ∧ nonreentrant s1 = (s1, Raise ReentrantCall)
    ∧ _reset_reentrancy_guard s1 = (s2, Ok tt)
    ∧ _status s2 = Some _NOT_ENTERED ∧ rest s2 = rest s
    ∧ (nonreentrant s2).2 = Ok tt.
Proof.
  intros Hs Hst. unfold nonreentrant, _reset_reentrancy_guard. run_M.
  rewrite Hs. case_decide; [done |]. simpl.
  do 2 eexists. repeat split.
Qed.

(** X24: on a contract whose [__init_mixin__] never ran there is no
    [_status]: the wrapper of the decorator raises its missing-mixin error
    without running the function, and the method [nonreentrant()] raises
    [AttributeError]; neither writes.  After [__init_mixin__] the status is
    [_NOT_ENTERED] and [nonreentrant()] returns. *)
Theorem reentrancy_without_mixin {A} (func : M (state D) A) (s : state D) :
  _status s = None →
  nonreentrant_decorator func s
  = (s, Raise (Exception "ReentrancyGuard: contract must include ReentrancyGuard mixin"))
  ∧ nonreentrant s = (s, Raise AttributeError)
  ∧ _status (__init_mixin__ s).1 = Some _NOT_ENTERED
  ∧ (nonreentrant (__init_mixin__ s).1).2 = Ok tt.
Proof.
  intros Hs. unfold nonreentrant_decorator, nonreentrant, __init_mixin__.
  run_M. rewrite Hs. done.
Qed.

(** X25: two wrapped functions called one after the other both run: when
    the first returns, the second is entered from the released latch, runs
    its function on the state the first one left (with the status
    [_ENTERED]) and gives the outcome of its function; the latch is
    released at the end. *)
Theorem reentrancy_sequential_calls {A B}
    (f : M (state D) A) (g : M (state D) B) (s : state D) st a :
  _status s = Some st → st ≠ _ENTERED →
  (f (set_status _ENTERED s)).2 = Ok a →
  let s1 := (nonreentrant_decorator f s).1 in
  let r := (let* _ := nonreentrant_decorator f in nonreentrant_decorator g) s in
  r.2 = (g (set_status _ENTERED s1)).2
  ∧ rest r.1 = rest (g (set_status _ENTERED s1)).1
  ∧ _status r.1 = Some _NOT_ENTERED.
Proof.
  intros Hs Hst Hf s1 r. subst s1 r. unfold bind.
  rewrite (decorator_runs f s st Hs Hst). rewrite Hf. simpl.
  rewrite (decorator_runs g _ _NOT_ENTERED); [done | done | discriminate].
Qed.

End ReentrancyMethods.

Lemma reentrancy_latch_protocol_run :
  let s := ReentrancyGuard.mk (Some ReentrancyGuard._NOT_ENTERED) 0 in
  ReentrancyGuard._status s = Some ReentrancyGuard._NOT_ENTERED
  ∧ ReentrancyGuard._NOT_ENTERED ≠ ReentrancyGuard._ENTERED
  ∧ ∃ s1, ReentrancyGuard.nonreentrant s = (s1, Ok tt)
          ∧ ReentrancyGuard.nonreentrant s1
            = (s1, Raise ReentrancyGuard.ReentrantCall).
Proof.
  intros s.
  assert (Hs : ReentrancyGuard._status s = Some ReentrancyGuard._NOT_ENTERED)
    by reflexivity.
  assert (Hst : ReentrancyGuard._NOT_ENTERED ≠ ReentrancyGuard._ENTERED)
    by discriminate.
  split; [exact Hs |]. split; [exact Hst |].
  destruct (reentrancy_latch_protocol s _ Hs Hst)
    as (s1 & s2 & H1 & _ & _ & H2 & _).
  exists s1. split; assumption.
Defined.

Lemma reentrancy_without_mixin_run :
  let s := ReentrancyGuard.mk None 0 in
  ReentrancyGuard._status s = None
  ∧ ReentrancyGuard.nonreentrant s = (s, Raise AttributeError).
Proof.
  intros s.
  assert (Hs : ReentrancyGuard._status s = None) by reflexivity.
  split; [exact Hs |].
  exact (proj1 (proj2 (reentrancy_without_mixin (ret tt) s Hs))).
Defined.

Lemma reentrancy_sequential_calls_run :
  let s := ReentrancyGuard.mk (Some ReentrancyGuard._NOT_ENTERED) 0 in
  let f : M (ReentrancyGuard.state Z) unit :=
    modify (λ s, ReentrancyGuard.mk (ReentrancyGuard._status s) 1) in
  let g : M (ReentrancyGuard.state Z) unit :=
    modify (λ s, ReentrancyGuard.mk (ReentrancyGuard._status s)
                   (ReentrancyGuard.rest s + 10)) in
  ReentrancyGuard._status s = Some ReentrancyGuard._NOT_ENTERED
  ∧ ReentrancyGuard._NOT_ENTERED ≠ ReentrancyGuard._ENTERED
  ∧ (f (ReentrancyGuard.set_status ReentrancyGuard._ENTERED s)).2 = Ok tt
  ∧ ReentrancyGuard._status
      ((let* _ := ReentrancyGuard.nonreentrant_decorator f in
        ReentrancyGuard.nonreentrant_decorator g) s).1
    = Some ReentrancyGuard._NOT_ENTERED.
Proof.
  intros s f g.
  assert (Hs : ReentrancyGuard._status s = Some ReentrancyGuard._NOT_ENTERED)
    by reflexivity.
  assert (Hst : ReentrancyGuard._NOT_ENTERED ≠ ReentrancyGuard._ENTERED)
    by discriminate.
  assert (Hf : (f (ReentrancyGuard.set_status ReentrancyGuard._ENTERED s)).2 = Ok tt)
    by reflexivity.
  split; [exact Hs |]. split; [exact Hst |]. split; [exact Hf |].
  exact (proj2 (proj2 (reentrancy_sequential_calls f g s _ tt Hs Hst Hf))).
Defined.
